(** * CSE160_ASG3: the per-frame simulation of the WebGL sheep-farm shooter

    A shallow embedding of the update phase of the game (camera.js, gun.js,
    enemies.js, cube.js and the frame driver of main.js) and the properties
    its design document states about it.

    Number model.  JavaScript numbers that hold continuous quantities
    (positions, angles, velocities, player health) are modelled as real
    numbers [R]; the counters the code only ever increments, decrements or
    compares (bullet life, shoot cooldown, enemy health, score, spawn timer)
    are modelled as integers [Z].  Rounding of IEEE doubles is not modelled. *)

From Stdlib Require Import Reals Lra Lia ZArith List Bool String Sorted.
Import ListNotations.
Open Scope R_scope.

Set Implicit Arguments.

(** ** JavaScript numbers and the Math object *)

Module JS.

(** [x < y] and [x <= y] on numbers, as the booleans an [if] tests. *)
Definition lt (x y : R) : bool := if Rlt_dec x y then true else false.
Definition le (x y : R) : bool := if Rle_dec x y then true else false.
Definition gt (x y : R) : bool := lt y x.
Definition ge (x y : R) : bool := le y x.

(** [x !== y] on numbers. *)
Definition neq (x y : R) : bool := if Req_dec_T x y then false else true.

(** [Math.floor], used only where the result is an index. *)
Definition Math_floor (x : R) : Z := Int_part x.

End JS.

(** Three-component vectors ([eye], directions). *)
Record Vec3 : Type := vec3 { v0 : R; v1 : R; v2 : R }.

Definition dot (a b : Vec3) : R := v0 a * v0 b + v1 a * v1 b + v2 a * v2 b.

Definition worldUp : Vec3 := vec3 0 1 0.

(** ** lib/cuon-matrix.js: Matrix4, kept symbolic

    The matrix library is not part of the repository.  A [Matrix4] is the
    chain of calls that built it: a [set...] call starts the chain again, the
    other calls extend it. *)

Inductive MatOp : Type :=
| SetLookAt (ex ey ez cx cy cz ux uy uz : R)
| SetTranslate (x y z : R)
| Translate (x y z : R)
| Rotate (angle x y z : R)
| Scale (x y z : R).

Definition Matrix4 : Type := list MatOp.

Definition identity4 : Matrix4 := [].

(** ** src/camera.js *)

Module Camera.

Record t : Type := mk {
  fov : R;
  speed : R;
  panAngle : R;
  eye : Vec3;
  yaw : R;
  pitch : R;
  viewMatrix : Matrix4;
  velY : R;
  grounded : bool;
  groundY : R;
  jumpForce : R;
  gravity : R
}.

(** [constructor()] (the projection matrix, set once at start-up, is left
    out). *)
Definition new : t :=
  {| fov := 60; speed := 0.15; panAngle := 3;
     eye := vec3 16 1.5 16; yaw := 0; pitch := 0;
     viewMatrix := identity4;
     velY := 0; grounded := true; groundY := 1.5;
     jumpForce := 0.18; gravity := 0.012 |}.

Definition with_eye (e : Vec3) (c : t) : t :=
  mk (fov c) (speed c) (panAngle c) e (yaw c) (pitch c) (viewMatrix c)
     (velY c) (grounded c) (groundY c) (jumpForce c) (gravity c).

Definition with_yaw (y : R) (c : t) : t :=
  mk (fov c) (speed c) (panAngle c) (eye c) y (pitch c) (viewMatrix c)
     (velY c) (grounded c) (groundY c) (jumpForce c) (gravity c).

Definition with_pitch (p : R) (c : t) : t :=
  mk (fov c) (speed c) (panAngle c) (eye c) (yaw c) p (viewMatrix c)
     (velY c) (grounded c) (groundY c) (jumpForce c) (gravity c).

Definition with_viewMatrix (m : Matrix4) (c : t) : t :=
  mk (fov c) (speed c) (panAngle c) (eye c) (yaw c) (pitch c) m
     (velY c) (grounded c) (groundY c) (jumpForce c) (gravity c).

Definition with_velY (v : R) (c : t) : t :=
  mk (fov c) (speed c) (panAngle c) (eye c) (yaw c) (pitch c) (viewMatrix c)
     v (grounded c) (groundY c) (jumpForce c) (gravity c).

Definition with_grounded (g : bool) (c : t) : t :=
  mk (fov c) (speed c) (panAngle c) (eye c) (yaw c) (pitch c) (viewMatrix c)
     (velY c) g (groundY c) (jumpForce c) (gravity c).

(** [updateView()]: yaw and pitch to a look direction, then [setLookAt]. *)
Definition updateView (c : t) : t :=
  let yawR := yaw c * PI / 180 in
  let pitchR := pitch c * PI / 180 in
  let cosPitch := cos pitchR in
  let fx := cos yawR * cosPitch in
  let fy := sin pitchR in
  let fz := sin yawR * cosPitch in
  with_viewMatrix
    [SetLookAt (v0 (eye c)) (v1 (eye c)) (v2 (eye c))
               (v0 (eye c) + fx) (v1 (eye c) + fy) (v2 (eye c) + fz)
               0 1 0] c.

Definition _fwd (c : t) : Vec3 :=
  let r := yaw c * PI / 180 in
  vec3 (cos r) 0 (sin r).

Definition _right (c : t) : Vec3 :=
  let r := yaw c * PI / 180 in
  vec3 (sin r) 0 (- cos r).

Definition moveForward (c : t) : t :=
  let f := _fwd c in
  with_eye (vec3 (v0 (eye c) + v0 f * speed c) (v1 (eye c))
                 (v2 (eye c) + v2 f * speed c)) c.

Definition moveBackwards (c : t) : t :=
  let f := _fwd c in
  with_eye (vec3 (v0 (eye c) - v0 f * speed c) (v1 (eye c))
                 (v2 (eye c) - v2 f * speed c)) c.

Definition moveLeft (c : t) : t :=
  let r := _right c in
  with_eye (vec3 (v0 (eye c) + v0 r * speed c) (v1 (eye c))
                 (v2 (eye c) + v2 r * speed c)) c.

Definition moveRight (c : t) : t :=
  let r := _right c in
  with_eye (vec3 (v0 (eye c) - v0 r * speed c) (v1 (eye c))
                 (v2 (eye c) - v2 r * speed c)) c.

Definition jump (c : t) : t :=
  if grounded c then with_grounded false (with_velY (jumpForce c) c)
  else c.

(** [applyGravity()], once per frame. *)
Definition applyGravity (c : t) : t :=
  if negb (grounded c) then
    let c1 := with_velY (velY c - gravity c) c in
    let c2 := with_eye (vec3 (v0 (eye c1)) (v1 (eye c1) + velY c1)
                             (v2 (eye c1))) c1 in
    if JS.le (v1 (eye c2)) (groundY c2) then
      with_grounded true
        (with_velY 0
           (with_eye (vec3 (v0 (eye c2)) (groundY c2) (v2 (eye c2))) c2))
    else c2
  else c.

Definition panLeft (c : t) : t := with_yaw (yaw c - panAngle c) c.
Definition panRight (c : t) : t := with_yaw (yaw c + panAngle c) c.

Definition mouseRotate (dx dy : R) (c : t) : t :=
  let SENS := 0.05 in
  let c1 := with_yaw (yaw c + dx * SENS) c in
  let c2 := with_pitch (pitch c1 - dy * SENS) c1 in
  let c3 := if JS.gt (pitch c2) 89 then with_pitch 89 c2 else c2 in
  if JS.lt (pitch c3) (-89) then with_pitch (-89) c3 else c3.

(** The map cell under the camera and the one 1.5 units ahead. *)
Definition getMapPosition (c : t) : Z * Z :=
  (JS.Math_floor (v0 (eye c)), JS.Math_floor (v2 (eye c))).

Definition getFrontMapPosition (c : t) : Z * Z :=
  let f := _fwd c in
  (JS.Math_floor (v0 (eye c) + v0 f * 1.5),
   JS.Math_floor (v2 (eye c) + v2 f * 1.5)).

(** A sequence of mouse-move events, each a [(dx, dy)] pair. *)
Definition mouseRotates (ds : list (R * R)) (c : t) : t :=
  fold_left (fun c d => mouseRotate (fst d) (snd d) c) ds c.

(** [n] frames of gravity. *)
Fixpoint applyGravityN (n : nat) (c : t) : t :=
  match n with
  | O => c
  | S k => applyGravity (applyGravityN k c)
  end.

End Camera.

(** ** src/sound.js

    The audio elements are outside the model; what is kept is which sounds
    are loaded ([_sfx]), the walk-loop flag, and the commands sent to the
    audio elements, oldest first. *)

Module Sound.

Inductive Cmd : Type :=
| Play (name : string)
| Pause (name : string).

Record t : Type := mk {
  _sfx : list string;
  _walkActive : bool;
  sent : list Cmd
}.

Definition initSounds (a : t) : t :=
  mk ["walk"; "place"; "break"; "shoot"; "jump"; "enemy_die"]%string
     (_walkActive a) (sent a).

Definition loaded (name : string) (a : t) : bool :=
  existsb (String.eqb name) (_sfx a).

Definition playSound (name : string) (a : t) : t :=
  if negb (loaded name a) then a
  else mk (_sfx a) (_walkActive a) (sent a ++ [Play name]).

Definition tickWalkSound (moving : bool) (a : t) : t :=
  if negb (loaded "walk" a) then a
  else if moving && negb (_walkActive a) then
    mk (_sfx a) true (sent a ++ [Play "walk"%string])
  else if negb moving && _walkActive a then
    mk (_sfx a) false (sent a ++ [Pause "walk"%string])
  else a.

End Sound.

(** ** src/gun.js *)

Module Bullet.

Record t : Type := mk {
  x : R; y : R; z : R;
  dx : R; dy : R; dz : R;
  life : Z
}.

End Bullet.

Module Gun.

Definition BULLET_SPEED : R := 0.5.
Definition BULLET_LIFE : Z := 80.
Definition SHOOT_COOLDOWN : Z := 12.

(** The module-level variables of gun.js. *)
Record t : Type := mk {
  g_bullets : list Bullet.t;
  g_shootCooldown : Z
}.

Definition initGun : t := mk [] 0.

Definition shoot (camera : Camera.t) (g : t) : t :=
  if (g_shootCooldown g >? 0)%Z then g
  else
    let yawR := Camera.yaw camera * PI / 180 in
    let pitchR := Camera.pitch camera * PI / 180 in
    let cp := cos pitchR in
    let dx := cos yawR * cp in
    let dy := sin pitchR in
    let dz := sin yawR * cp in
    mk (g_bullets g ++
          [Bullet.mk (v0 (Camera.eye camera) + dx * 0.5)
                     (v1 (Camera.eye camera) + dy * 0.5)
                     (v2 (Camera.eye camera) + dz * 0.5)
                     (dx * BULLET_SPEED) (dy * BULLET_SPEED)
                     (dz * BULLET_SPEED)
                     BULLET_LIFE])
       SHOOT_COOLDOWN.

(** The body of the loop of [updateBullets]: one bullet, one frame. *)
Definition advanceBullet (b : Bullet.t) : Bullet.t :=
  Bullet.mk (Bullet.x b + Bullet.dx b) (Bullet.y b + Bullet.dy b)
            (Bullet.z b + Bullet.dz b)
            (Bullet.dx b) (Bullet.dy b) (Bullet.dz b)
            (Bullet.life b - 1).

Definition updateBullets (g : t) : t :=
  let cd := if (g_shootCooldown g >? 0)%Z then (g_shootCooldown g - 1)%Z
            else g_shootCooldown g in
  mk (filter (fun b => (Bullet.life b >? 0)%Z)
             (map advanceBullet (g_bullets g)))
     cd.

Definition getBullets (g : t) : list Bullet.t := g_bullets g.
Definition setBullets (arr : list Bullet.t) (g : t) : t :=
  mk arr (g_shootCooldown g).

(** [n] calls of [updateBullets]; [n] moves of one bullet. *)
Fixpoint updateBulletsN (n : nat) (g : t) : t :=
  match n with
  | O => g
  | S k => updateBullets (updateBulletsN k g)
  end.

Fixpoint advanceBulletN (n : nat) (b : Bullet.t) : Bullet.t :=
  match n with
  | O => b
  | S k => advanceBullet (advanceBulletN k b)
  end.

End Gun.

(** ** src/enemies.js *)

Module Enemy.

Record t : Type := mk {
  x : R; y : R; z : R;
  health : Z;
  scale : R;
  bobTime : R;
  dead : bool
}.

End Enemy.

(** [Math.random]: the values the generator is going to return, in order. *)
Definition Random : Type := nat -> R.

Definition nextRandom (r : Random) : R * Random := (r O, fun n => r (S n)).

(** What one [_ss] call of the sheep shader pass receives: the model matrix
    and the colour (the cube mesh is the same in every call). *)
Record DrawCall : Type := mkDraw {
  drawMatrix : Matrix4;
  drawColor : R * R * R
}.

Module Enemies.

Definition ENEMY_SPEED : R := 0.02.
Definition ENEMY_SPAWN_RATE : Z := 180.
Definition ENEMY_MAX : nat := 20.
Definition ENEMY_DAMAGE_DIST : R := 1.2.

Definition _eRed : R * R * R := (0.85, 0.12, 0.12).
Definition _eOrange : R * R * R := (0.9, 0.45, 0.1).
Definition _eDark : R * R * R := (0.06, 0.04, 0.04).
Definition _eWhite : R * R * R := (0.95, 0.92, 0.88).

(** The module-level variables of enemies.js. *)
Record t : Type := mk {
  g_enemies : list Enemy.t;
  g_enemySpawnTimer : Z;
  g_playerHealth : R;
  g_score : Z
}.

Definition spawnEnemy (rnd : Random) (es : list Enemy.t)
  : Random * list Enemy.t :=
  let '(r0, rnd) := nextRandom rnd in
  let edge := JS.Math_floor (r0 * 4) in
  let '(r1, rnd) := nextRandom rnd in
  let '(x, z) :=
    if (edge =? 0)%Z then (1 + r1 * 30, 1)
    else if (edge =? 1)%Z then (1 + r1 * 30, 30)
    else if (edge =? 2)%Z then (1, 1 + r1 * 30)
    else (30, 1 + r1 * 30) in
  let '(r2, rnd) := nextRandom rnd in
  (rnd, es ++ [Enemy.mk x 0.5 z 2 0.6 (r2 * PI * 2) false]).

Definition initEnemies (rnd : Random) (s : t) : Random * t :=
  let '(rnd, es) := spawnEnemy rnd [] in
  (rnd, mk es (g_enemySpawnTimer s) 100 0).

(** The body of the loop of [updateEnemies]: one enemy, one frame, with the
    player's health threaded through. *)
Definition advanceEnemy (px pz : R) (e : Enemy.t) (playerHealth : R)
  : Enemy.t * R :=
  if Enemy.dead e then (e, playerHealth)
  else
    let dx := px - Enemy.x e in
    let dz := pz - Enemy.z e in
    let dist := sqrt (dx * dx + dz * dz) in
    let '(x, z) :=
      if JS.gt dist 0.01
      then (Enemy.x e + (dx / dist) * ENEMY_SPEED,
            Enemy.z e + (dz / dist) * ENEMY_SPEED)
      else (Enemy.x e, Enemy.z e) in
    let bobTime := Enemy.bobTime e + 0.08 in
    let y := 0.5 + Rabs (sin bobTime) * 0.15 in
    let e' := Enemy.mk x y z (Enemy.health e) (Enemy.scale e) bobTime
                       (Enemy.dead e) in
    if JS.lt dist ENEMY_DAMAGE_DIST then
      let h := playerHealth - 0.15 in
      (e', if JS.lt h 0 then 0 else h)
    else (e', playerHealth).

Fixpoint advanceEnemies (px pz : R) (es : list Enemy.t) (playerHealth : R)
  : list Enemy.t * R :=
  match es with
  | [] => ([], playerHealth)
  | e :: rest =>
      let '(e', h) := advanceEnemy px pz e playerHealth in
      let '(rest', h') := advanceEnemies px pz rest h in
      (e' :: rest', h')
  end.

Definition updateEnemies (camera : Camera.t) (rnd : Random) (s : t)
  : Random * t :=
  let px := v0 (Camera.eye camera) in
  let pz := v2 (Camera.eye camera) in
  let timer := (g_enemySpawnTimer s + 1)%Z in
  let '(rnd, timer, es) :=
    if (timer >=? ENEMY_SPAWN_RATE)%Z then
      if (List.length (g_enemies s) <? ENEMY_MAX)%nat
      then let '(rnd', es') := spawnEnemy rnd (g_enemies s) in (rnd', 0%Z, es')
      else (rnd, 0%Z, g_enemies s)
    else (rnd, timer, g_enemies s) in
  let '(es, h) := advanceEnemies px pz es (g_playerHealth s) in
  (rnd, mk (filter (fun e => negb (Enemy.dead e)) es) timer h (g_score s)).

(** The seven [_ss] calls that draw one enemy. *)
Definition drawEnemy (e : Enemy.t) : list DrawCall :=
  let sc := Enemy.scale e in
  let bodyColor := if (Enemy.health e >? 1)%Z then _eRed else _eOrange in
  let spin := Enemy.bobTime e * 30 in
  let _eBase := [SetTranslate (Enemy.x e) (Enemy.y e) (Enemy.z e);
                 Rotate spin 0 1 0] in
  let f := sc in
  [ mkDraw (_eBase ++ [Scale sc sc sc]) bodyColor;
    mkDraw (_eBase ++ [Translate (- f * 0.22) (f * 0.15) (f * 0.52);
                       Scale (f * 0.14) (f * 0.14) (f * 0.06)]) _eDark;
    mkDraw (_eBase ++ [Translate (f * 0.22) (f * 0.15) (f * 0.52);
                       Scale (f * 0.14) (f * 0.14) (f * 0.06)]) _eDark;
    mkDraw (_eBase ++ [Translate (- f * 0.22) (f * 0.38) (f * 0.52);
                       Rotate (-25) 0 0 1;
                       Scale (f * 0.22) (f * 0.07) (f * 0.06)]) _eDark;
    mkDraw (_eBase ++ [Translate (f * 0.22) (f * 0.38) (f * 0.52);
                       Rotate 25 0 0 1;
                       Scale (f * 0.22) (f * 0.07) (f * 0.06)]) _eDark;
    mkDraw (_eBase ++ [Translate (- f * 0.14) (- f * 0.22) (f * 0.52);
                       Rotate 18 0 0 1;
                       Scale (f * 0.18) (f * 0.07) (f * 0.06)]) _eDark;
    mkDraw (_eBase ++ [Translate (f * 0.14) (- f * 0.22) (f * 0.52);
                       Rotate (-18) 0 0 1;
                       Scale (f * 0.18) (f * 0.07) (f * 0.06)]) _eDark ].

(** [drawEnemies(gl)]: the [_ss] calls it makes, in order;
    [g_sheepProgram] says whether the sheep shader compiled. *)
Fixpoint drawEnemiesLoop (es : list Enemy.t) : list DrawCall :=
  match es with
  | [] => []
  | e :: rest =>
      if Enemy.dead e then drawEnemiesLoop rest
      else drawEnemy e ++ drawEnemiesLoop rest
  end.

Definition drawEnemies (g_sheepProgram : bool) (s : t) : list DrawCall :=
  if negb g_sheepProgram then [] else drawEnemiesLoop (g_enemies s).

(** The distance test of [checkBulletHits]. *)
Definition inRange (bullet : Bullet.t) (en : Enemy.t) : bool :=
  let dx := Bullet.x bullet - Enemy.x en in
  let dz := Bullet.z bullet - Enemy.z en in
  let dy := Bullet.y bullet - Enemy.y en in
  JS.lt (sqrt (dx * dx + dy * dy + dz * dz)) (Enemy.scale en + 0.3).

(** What a hit does to the enemy it lands on, to the score and to the
    audio. *)
Definition damage (en : Enemy.t) (score : Z) (a : Sound.t)
  : Enemy.t * Z * Sound.t :=
  let h := (Enemy.health en - 1)%Z in
  if (h <=? 0)%Z then
    (Enemy.mk (Enemy.x en) (Enemy.y en) (Enemy.z en) h (Enemy.scale en)
              (Enemy.bobTime en) true,
     (score + 10)%Z, Sound.playSound "enemy_die" a)
  else
    (Enemy.mk (Enemy.x en) (Enemy.y en) (Enemy.z en) h (Enemy.scale en)
              (Enemy.bobTime en) (Enemy.dead en),
     score, a).

(** The inner loop of [checkBulletHits]: the enemies from the current index
    on; the last component is [hit]. *)
Fixpoint hitScan (bullet : Bullet.t) (es : list Enemy.t) (score : Z)
  (a : Sound.t) : list Enemy.t * Z * Sound.t * bool :=
  match es with
  | [] => ([], score, a, false)
  | en :: rest =>
      if Enemy.dead en then
        let '(rest', score', a', hit) := hitScan bullet rest score a in
        (en :: rest', score', a', hit)
      else if inRange bullet en then
        let '(en', score', a') := damage en score a in
        (en' :: rest, score', a', true)
      else
        let '(rest', score', a', hit) := hitScan bullet rest score a in
        (en :: rest', score', a', hit)
  end.

(** The outer loop, with [surviving] as accumulator. *)
Fixpoint hitLoop (bullets surviving : list Bullet.t) (s : t) (a : Sound.t)
  : list Bullet.t * t * Sound.t :=
  match bullets with
  | [] => (surviving, s, a)
  | bullet :: rest =>
      let '(es, score, a', hit) :=
        hitScan bullet (g_enemies s) (g_score s) a in
      let s' := mk es (g_enemySpawnTimer s) (g_playerHealth s) score in
      hitLoop rest (if hit then surviving else surviving ++ [bullet]) s' a'
  end.

Definition checkBulletHits (bullets : list Bullet.t) (s : t) (a : Sound.t)
  : list Bullet.t * t * Sound.t :=
  hitLoop bullets [] s a.

End Enemies.

(** ** The WebGL context, as far as cube.js uses it

    A context is the log of the calls made on it, oldest first, and the
    number of buffers created so far (a buffer is named by its number). *)

Module GL.

Inductive Loc : Type :=
| a_Position | a_UV | u_ModelMatrix | u_baseColor | u_texColorWeight
| u_whichTexture.

Inductive Call : Type :=
| createBuffer (id : nat)
| deleteBuffer (id : nat)
| bindBuffer (id : nat)
| bufferData (data : list R)
| vertexAttribPointer (loc : Loc) (size stride offset : Z)
| enableVertexAttribArray (loc : Loc)
| uniformMatrix4fv (loc : Loc) (elements : list R)
| uniform4fv (loc : Loc) (v : list R)
| uniform1f (loc : Loc) (v : R)
| uniform1i (loc : Loc) (v : Z)
| drawArrays (first count : Z).

Record t : Type := mk {
  calls : list Call;
  buffers : nat
}.

Definition call (c : Call) (gl : t) : t := mk (calls gl ++ [c]) (buffers gl).

Definition newBuffer (gl : t) : nat * t :=
  (buffers gl, mk (calls gl ++ [createBuffer (buffers gl)]) (S (buffers gl))).

(** The number of vertices a log of calls asks the GPU to draw, and the
    number of draw calls in it. *)
Fixpoint verticesDrawn (cs : list Call) : Z :=
  match cs with
  | [] => 0
  | drawArrays _ count :: rest => (count + verticesDrawn rest)%Z
  | _ :: rest => verticesDrawn rest
  end.

Fixpoint drawCallCount (cs : list Call) : nat :=
  match cs with
  | [] => O
  | drawArrays _ _ :: rest => S (drawCallCount rest)
  | _ :: rest => drawCallCount rest
  end.

End GL.

(** ** src/cube.js: CubeBatch *)

Module CubeBatch.

(** The unit cube: 36 vertices, [x y z u v] each. *)
Definition _buildCubeVerts : list R :=
  [ -0.5;-0.5; 0.5; 0;0;  0.5;-0.5; 0.5; 1;0;  0.5; 0.5; 0.5; 1;1;
    -0.5;-0.5; 0.5; 0;0;  0.5; 0.5; 0.5; 1;1; -0.5; 0.5; 0.5; 0;1;
     0.5;-0.5;-0.5; 0;0; -0.5;-0.5;-0.5; 1;0; -0.5; 0.5;-0.5; 1;1;
     0.5;-0.5;-0.5; 0;0; -0.5; 0.5;-0.5; 1;1;  0.5; 0.5;-0.5; 0;1;
    -0.5;-0.5;-0.5; 0;0; -0.5;-0.5; 0.5; 1;0; -0.5; 0.5; 0.5; 1;1;
    -0.5;-0.5;-0.5; 0;0; -0.5; 0.5; 0.5; 1;1; -0.5; 0.5;-0.5; 0;1;
     0.5;-0.5; 0.5; 0;0;  0.5;-0.5;-0.5; 1;0;  0.5; 0.5;-0.5; 1;1;
     0.5;-0.5; 0.5; 0;0;  0.5; 0.5;-0.5; 1;1;  0.5; 0.5; 0.5; 0;1;
    -0.5; 0.5; 0.5; 0;0;  0.5; 0.5; 0.5; 1;0;  0.5; 0.5;-0.5; 1;1;
    -0.5; 0.5; 0.5; 0;0;  0.5; 0.5;-0.5; 1;1; -0.5; 0.5;-0.5; 0;1;
    -0.5;-0.5;-0.5; 0;0;  0.5;-0.5;-0.5; 1;0;  0.5;-0.5; 0.5; 1;1;
    -0.5;-0.5;-0.5; 0;0;  0.5;-0.5; 0.5; 1;1; -0.5;-0.5; 0.5; 0;1 ].

(** [_cubeData], as [initCubeBuffer] leaves it. *)
Definition _cubeData : list R := _buildCubeVerts.

Definition _identityElements : list R :=
  [1;0;0;0; 0;1;0;0; 0;0;1;0; 0;0;0;1].
Definition _white4 : list R := [1;1;1;1].

(** A cube descriptor of the list handed to [build]. *)
Record Desc : Type := mkDesc {
  tx : R; ty : R; tz : R;
  sx : R; sy : R; sz : R
}.

Record t : Type := mk {
  vbo : option nat;
  vertCount : Z;
  texNum : Z
}.

Definition new : t := mk None 0 0.

(** The five floats the inner loop of [build] writes for template vertex
    [v] of descriptor [d]. *)
Definition bakeVertex (T : list R) (d : Desc) (v : nat) : list R :=
  let i := (v * 5)%nat in
  [ nth i T 0 * sx d + tx d;
    nth (i + 1) T 0 * sy d + ty d;
    nth (i + 2) T 0 * sz d + tz d;
    nth (i + 3) T 0;
    nth (i + 4) T 0 ].

Definition bakeCube (T : list R) (d : Desc) : list R :=
  flat_map (bakeVertex T d) (seq 0 36).

Definition build (cubeDescs : list Desc) (texNum : Z) (b : t) (gl : GL.t)
  : t * GL.t :=
  let T := _cubeData in
  let buf := flat_map (bakeCube T) cubeDescs in
  let gl := match vbo b with
            | Some old => GL.call (GL.deleteBuffer old) gl
            | None => gl
            end in
  let '(id, gl) := GL.newBuffer gl in
  let gl := GL.call (GL.bindBuffer id) gl in
  let gl := GL.call (GL.bufferData buf) gl in
  (mk (Some id) (Z.of_nat (List.length cubeDescs) * 36) texNum, gl).

Definition draw (b : t) (gl : GL.t) : GL.t :=
  match vbo b with
  | None => gl
  | Some id =>
      if (vertCount b =? 0)%Z then gl
      else
        let F := 4%Z in
        let STRIDE := (F * 5)%Z in
        let gl := GL.call (GL.bindBuffer id) gl in
        let gl := GL.call (GL.vertexAttribPointer GL.a_Position 3 STRIDE 0)
                          gl in
        let gl := GL.call (GL.enableVertexAttribArray GL.a_Position) gl in
        let gl := GL.call (GL.vertexAttribPointer GL.a_UV 2 STRIDE (F * 3))
                          gl in
        let gl := GL.call (GL.enableVertexAttribArray GL.a_UV) gl in
        let gl := GL.call (GL.uniformMatrix4fv GL.u_ModelMatrix
                                               _identityElements) gl in
        let gl := GL.call (GL.uniform4fv GL.u_baseColor _white4) gl in
        let gl := GL.call (GL.uniform1f GL.u_texColorWeight 1.0) gl in
        let gl := GL.call (GL.uniform1i GL.u_whichTexture (texNum b)) gl in
        GL.call (GL.drawArrays 0 (vertCount b)) gl
  end.

End CubeBatch.

(** ** src/main.js: the frame driver *)

Module Main.

Section FrameDriver.

(** src/world.js (the block store) is not among the sources: the store and
    the three operations the key handler calls on it are parameters. *)
Variable World : Type.
Variable addBlock : Z -> Z -> World -> bool * World.
Variable removeBlock : Z -> Z -> World -> bool * World.
Variable rebuildBatches : World -> World.

(** The keys currently held: [g_keys], a missing key reading as false. *)
Definition Keys : Type := string -> bool.

Definition setKey (k : string) (v : bool) (keys : Keys) : Keys :=
  fun k' => if String.eqb k' k then v else keys k'.

(** The globals the frame driver works on. *)
Record Game : Type := mkGame {
  camera : Camera.t;
  g_keys : Keys;
  gun : Gun.t;
  enemies : Enemies.t;
  random : Random;
  audio : Sound.t;
  world : World
}.

Definition with_camera (c : Camera.t) (g : Game) : Game :=
  mkGame c (g_keys g) (gun g) (enemies g) (random g) (audio g) (world g).

Definition with_keys (k : Keys) (g : Game) : Game :=
  mkGame (camera g) k (gun g) (enemies g) (random g) (audio g) (world g).

Definition with_gun (x : Gun.t) (g : Game) : Game :=
  mkGame (camera g) (g_keys g) x (enemies g) (random g) (audio g) (world g).

Definition with_enemies (r : Random) (e : Enemies.t) (g : Game) : Game :=
  mkGame (camera g) (g_keys g) (gun g) e r (audio g) (world g).

Definition with_audio (a : Sound.t) (g : Game) : Game :=
  mkGame (camera g) (g_keys g) (gun g) (enemies g) (random g) a (world g).

Definition with_world (w : World) (g : Game) : Game :=
  mkGame (camera g) (g_keys g) (gun g) (enemies g) (random g) (audio g) w.

Definition onKey (k : string) (f : Game -> Game) (g : Game) : Game :=
  if g_keys g k then f g else g.

Definition editBlock (edit : Z -> Z -> World -> bool * World)
  (sound : string) (g : Game) : Game :=
  let fp := Camera.getFrontMapPosition (camera g) in
  let '(ok, w) := edit (fst fp) (snd fp) (world g) in
  let g := with_world w g in
  if ok then
    with_audio (Sound.playSound sound (audio g))
               (with_world (rebuildBatches (world g)) g)
  else g.

(** The key handler, one definition for each key it looks at. *)
Definition keyW (g : Game) : Game :=
  onKey "w" (fun g => with_camera (Camera.moveForward (camera g)) g) g.

Definition keyS (g : Game) : Game :=
  onKey "s" (fun g => with_camera (Camera.moveBackwards (camera g)) g) g.

Definition keyA (g : Game) : Game :=
  onKey "a" (fun g => with_camera (Camera.moveLeft (camera g)) g) g.

Definition keyD (g : Game) : Game :=
  onKey "d" (fun g => with_camera (Camera.moveRight (camera g)) g) g.

Definition keyQ (g : Game) : Game :=
  onKey "q" (fun g => with_camera (Camera.panLeft (camera g)) g) g.

Definition keyE (g : Game) : Game :=
  onKey "e" (fun g => with_camera (Camera.panRight (camera g)) g) g.

Definition keySpace (g : Game) : Game :=
  onKey " " (fun g =>
    let g := with_camera (Camera.jump (camera g)) g in
    let g := with_audio (Sound.playSound "jump" (audio g)) g in
    with_keys (setKey " " false (g_keys g)) g) g.

Definition keyF (g : Game) : Game :=
  onKey "f" (fun g =>
    let g := with_gun (Gun.shoot (camera g) (gun g)) g in
    let g := with_audio (Sound.playSound "shoot" (audio g)) g in
    with_keys (setKey "f" false (g_keys g)) g) g.

Definition keyT (g : Game) : Game :=
  onKey "t" (fun g =>
    let g := editBlock addBlock "place" g in
    with_keys (setKey "t" false (g_keys g)) g) g.

Definition keyY (g : Game) : Game :=
  onKey "y" (fun g =>
    let g := editBlock removeBlock "break" g in
    with_keys (setKey "y" false (g_keys g)) g) g.

Definition _handleKeys (g : Game) : Game :=
  let g := keyW g in
  let g := keyS g in
  let g := keyA g in
  let g := keyD g in
  let g := keyQ g in
  let g := keyE g in
  let g := keySpace g in
  let g := keyF g in
  let g := keyT g in
  keyY g.

(** The phases of [tick] after the key handler, one definition each. *)
Definition walkSoundPhase (_eyeBefore : R * R) (g : Game) : Game :=
  let _moving := JS.neq (v0 (Camera.eye (camera g))) (fst _eyeBefore)
                 || JS.neq (v2 (Camera.eye (camera g))) (snd _eyeBefore) in
  with_audio
    (Sound.tickWalkSound (_moving && Camera.grounded (camera g)) (audio g)) g.

Definition gravityPhase (g : Game) : Game :=
  with_camera (Camera.applyGravity (camera g)) g.

Definition bulletPhase (g : Game) : Game :=
  with_gun (Gun.updateBullets (gun g)) g.

Definition enemyPhase (g : Game) : Game :=
  let '(rnd, es) := Enemies.updateEnemies (camera g) (random g) (enemies g) in
  with_enemies rnd es g.

Definition hitPhase (g : Game) : Game :=
  let '(surviving, es, a) :=
    Enemies.checkBulletHits (Gun.getBullets (gun g)) (enemies g) (audio g) in
  with_audio a
    (with_enemies (random g) es (with_gun (Gun.setBullets surviving (gun g)) g)).

(** [renderScene()]: of the state only the view matrix changes; what is
    drawn is not part of the state. *)
Definition renderScene (g : Game) : Game :=
  with_camera (Camera.updateView (camera g)) g.

(** [tick(timestamp)]; the FPS counter and the HUD, which only write to the
    page, are left out. *)
Definition tick (g : Game) : Game :=
  let _eyeBefore := (v0 (Camera.eye (camera g)), v2 (Camera.eye (camera g))) in
  let g := _handleKeys g in
  let g := walkSoundPhase _eyeBefore g in
  let g := gravityPhase g in
  let g := bulletPhase g in
  let g := enemyPhase g in
  let g := hitPhase g in
  renderScene g.

(** What [tick] does once the key handler has run. *)
Definition afterKeys (_eyeBefore : R * R) (g : Game) : Game :=
  renderScene
    (hitPhase
       (enemyPhase (bulletPhase (gravityPhase (walkSoundPhase _eyeBefore g))))).

(** The enemies still in the list with their [dead] flag set. *)
Definition deadInList (g : Game) : list Enemy.t :=
  filter Enemy.dead (Enemies.g_enemies (enemies g)).

End FrameDriver.

End Main.

(** ** Notions the statements below use *)

Module Spec.

Import Camera.

(** Degrees to radians, as every trigonometric call of the code converts. *)
Definition rad (deg : R) : R := deg * PI / 180.

(** The look direction [updateView] hands to [setLookAt], as centre minus
    eye. *)
Definition lookDirection (c : Camera.t) : option Vec3 :=
  match Camera.viewMatrix (Camera.updateView c) with
  | [SetLookAt ex ey ez cx cy cz _ _ _] =>
      Some (vec3 (cx - ex) (cy - ey) (cz - ez))
  | _ => None
  end.

(** Height above the ground [k] frames into a jump of impulse [J] under
    gravity [g], while still in the air. *)
Definition heightGain (J g : R) (k : nat) : R :=
  INR k * J - g * INR k * (INR k + 1) / 2.

(** The camera [k] frames into a jump, while it has not come down. *)
Definition inFlight (c : Camera.t) (k : nat) : Camera.t :=
  mk (fov c) (speed c) (panAngle c)
     (vec3 (v0 (eye c))
           (groundY c + heightGain (jumpForce c) (gravity c) k)
           (v2 (eye c)))
     (yaw c) (pitch c) (viewMatrix c)
     (jumpForce c - INR k * gravity c) false
     (groundY c) (jumpForce c) (gravity c).

(** The camera back on the ground. *)
Definition landed (c : Camera.t) : Camera.t :=
  mk (fov c) (speed c) (panAngle c)
     (vec3 (v0 (eye c)) (groundY c) (v2 (eye c)))
     (yaw c) (pitch c) (viewMatrix c)
     0 true (groundY c) (jumpForce c) (gravity c).

(** The frame on which a jump of impulse [J] under gravity [g] lands. *)
Definition landingFrames (J g : R) : nat :=
  Z.to_nat (Z.max 1 (- up (- (2 * J / g)))).

(** The bullet [shoot] appends when the gun is ready. *)
Definition firedBullet (camera : Camera.t) : Bullet.t :=
  let yawR := yaw camera * PI / 180 in
  let pitchR := pitch camera * PI / 180 in
  let cp := cos pitchR in
  Bullet.mk (v0 (eye camera) + cos yawR * cp * 0.5)
            (v1 (eye camera) + sin pitchR * 0.5)
            (v2 (eye camera) + sin yawR * cp * 0.5)
            (cos yawR * cp * Gun.BULLET_SPEED) (sin pitchR * Gun.BULLET_SPEED)
            (sin yawR * cp * Gun.BULLET_SPEED)
            Gun.BULLET_LIFE.

(** What one [updateBullets] does to the bullet list. *)
Definition stepBullets (l : list Bullet.t) : list Bullet.t :=
  filter (fun b => (Bullet.life b >? 0)%Z) (map Gun.advanceBullet l).

Fixpoint stepBulletsN (n : nat) (l : list Bullet.t) : list Bullet.t :=
  match n with
  | O => l
  | S k => stepBullets (stepBulletsN k l)
  end.

(** The two things that happen to the gun, in whatever order the frames
    and the input events bring them. *)
Inductive GunOp : Type :=
| Fire (camera : Camera.t)
| Advance.

Definition runOp (op : GunOp) (g : Gun.t) : Gun.t :=
  match op with
  | Fire camera => Gun.shoot camera g
  | Advance => Gun.updateBullets g
  end.

Definition runOps (ops : list GunOp) (g : Gun.t) : Gun.t :=
  fold_left (fun g op => runOp op g) ops g.

Fixpoint advances (ops : list GunOp) : nat :=
  match ops with
  | [] => O
  | Advance :: rest => S (advances rest)
  | Fire _ :: rest => advances rest
  end.

(** The enemies of a list that are not dead. *)
Definition alive (es : list Enemy.t) : list Enemy.t :=
  filter (fun e => negb (Enemy.dead e)) es.

Definition withEnemies (es : list Enemy.t) (s : Enemies.t) : Enemies.t :=
  Enemies.mk es (Enemies.g_enemySpawnTimer s) (Enemies.g_playerHealth s)
             (Enemies.g_score s).

(** The index of the enemy a bullet lands on: the first one in the list
    that is not dead and within range. *)
Fixpoint firstTarget (bullet : Bullet.t) (es : list Enemy.t) : option nat :=
  match es with
  | [] => None
  | en :: rest =>
      if negb (Enemy.dead en) && Enemies.inRange bullet en then Some O
      else option_map S (firstTarget bullet rest)
  end.

(** [es] with the element at index [i] replaced. *)
Fixpoint setNth (i : nat) (e : Enemy.t) (es : list Enemy.t) : list Enemy.t :=
  match es, i with
  | [], _ => []
  | _ :: rest, O => e :: rest
  | e0 :: rest, S j => e0 :: setNth j e rest
  end.

(** An enemy with its health and dead flag replaced, all else the same. *)
Definition wounded (en : Enemy.t) (h : Z) (d : bool) : Enemy.t :=
  Enemy.mk (Enemy.x en) (Enemy.y en) (Enemy.z en) h (Enemy.scale en)
           (Enemy.bobTime en) d.

(** The three parts of what [checkBulletHits] leaves. *)
Definition hitSurvivors (r : list Bullet.t * Enemies.t * Sound.t)
  : list Bullet.t := fst (fst r).
Definition hitState (r : list Bullet.t * Enemies.t * Sound.t)
  : Enemies.t := snd (fst r).
Definition hitAudio (r : list Bullet.t * Enemies.t * Sound.t)
  : Sound.t := snd r.

(** [l2] is [l1] with some of its dead enemies left out. *)
Inductive lessDead : list Enemy.t -> list Enemy.t -> Prop :=
| lessDead_nil : lessDead [] []
| lessDead_keep e l1 l2 : lessDead l1 l2 -> lessDead (e :: l1) (e :: l2)
| lessDead_drop e l1 l2 :
    Enemy.dead e = true -> lessDead l1 l2 -> lessDead (e :: l1) l2.

(** The number of dead enemies in a list. *)
Definition deadCount (es : list Enemy.t) : Z :=
  Z.of_nat (List.length (filter Enemy.dead es)).

(** A frame in flight: the camera where it starts, no key held, a bullet
    fired two frames ago along +x, and an enemy already hit once walking in
    from that side; the block store is empty and never changes. *)
Definition noBlocks (col row : Z) (w : unit) : bool * unit := (false, w).

Definition frameBeforeKill : Main.Game unit :=
  Main.mkGame Camera.new (fun _ => false)
    (Gun.mk [Bullet.mk 17.5 1.5 16 0.5 0 0 78] 10)
    (Enemies.mk [Enemy.mk 18.02 0.5 16 1 0.6 (PI / 2 - 0.08) false] 0 100 0)
    (fun _ => 0)
    (Sound.initSounds (Sound.mk [] false []))
    tt.

End Spec.

(** ** Sequences of camera calls

    The camera's mutators, as the key handler, the mouse handler and the
    frame driver call them, in any order. *)

Module CameraOps.

Inductive Op : Type :=
| MoveForward | MoveBackwards | MoveLeft | MoveRight
| PanLeft | PanRight
| Jump | ApplyGravity
| MouseRotate (dx dy : R)
| UpdateView.

Definition run (op : Op) (c : Camera.t) : Camera.t :=
  match op with
  | MoveForward => Camera.moveForward c
  | MoveBackwards => Camera.moveBackwards c
  | MoveLeft => Camera.moveLeft c
  | MoveRight => Camera.moveRight c
  | PanLeft => Camera.panLeft c
  | PanRight => Camera.panRight c
  | Jump => Camera.jump c
  | ApplyGravity => Camera.applyGravity c
  | MouseRotate dx dy => Camera.mouseRotate dx dy c
  | UpdateView => Camera.updateView c
  end.

Definition runAll (ops : list Op) (c : Camera.t) : Camera.t :=
  fold_left (fun c op => run op c) ops c.

(** The camera stands where its flags say: never below the ground, on it
    and at rest when [grounded], pitch within the clamp. *)
Definition consistent (c : Camera.t) : Prop :=
  Camera.groundY c <= v1 (Camera.eye c) /\
  (Camera.grounded c = true ->
   v1 (Camera.eye c) = Camera.groundY c /\ Camera.velY c = 0) /\
  -89 <= Camera.pitch c <= 89.

(** Horizontal displacement of the eye from [c] to [c']. *)
Definition stepX (c c' : Camera.t) : R :=
  v0 (Camera.eye c') - v0 (Camera.eye c).
Definition stepZ (c c' : Camera.t) : R :=
  v2 (Camera.eye c') - v2 (Camera.eye c).

End CameraOps.

(** ** What holds of the gun at all times *)

Module GunInv.

(** [l1] is [l2] with some elements left out, order kept. *)
Inductive subseq (A : Type) : list A -> list A -> Prop :=
| subseq_nil : subseq [] []
| subseq_skip x l1 l2 : subseq l1 l2 -> subseq l1 (x :: l2)
| subseq_keep x l1 l2 : subseq l1 l2 -> subseq (x :: l1) (x :: l2).

(** A bullet fired at least 12 frames after another has at least 12 frames
    more to live. *)
Definition firedLater (b b' : Bullet.t) : Prop :=
  (Bullet.life b + 12 <= Bullet.life b')%Z.

(** The gun's counter is within its range; the bullets, oldest first, are
    spaced at least 12 frames apart, all have life left, and the newest is
    as old as the counter says. *)
Definition ok (g : Gun.t) : Prop :=
  (0 <= Gun.g_shootCooldown g <= Gun.SHOOT_COOLDOWN)%Z /\
  Sorted.StronglySorted firedLater (Gun.g_bullets g) /\
  Forall (fun b => (0 < Bullet.life b <= 68 + Gun.g_shootCooldown g)%Z)
         (Gun.g_bullets g).

(** What can happen to the gun: a [shoot] (from the key handler or the
    mouse), an [updateBullets], or a [setBullets] with what hit resolution
    kept of the list. *)
Inductive Event : Type :=
| Shoot (camera : Camera.t)
| Update
| Resolve (s : Enemies.t) (a : Sound.t).

Definition step (e : Event) (g : Gun.t) : Gun.t :=
  match e with
  | Shoot camera => Gun.shoot camera g
  | Update => Gun.updateBullets g
  | Resolve s a =>
      Gun.setBullets
        (fst (fst (Enemies.checkBulletHits (Gun.getBullets g) s a))) g
  end.

Definition steps (es : list Event) (g : Gun.t) : Gun.t :=
  fold_left (fun g e => step e g) es g.

End GunInv.

(** ** Measures on the enemy list *)

Module EnemyMeasures.

(** The health points left in a list of enemies. *)
Fixpoint totalHealth (es : list Enemy.t) : Z :=
  match es with
  | [] => 0
  | e :: rest => (Enemy.health e + totalHealth rest)%Z
  end.

(** Two records of the same enemy at the same place: all but health and the
    dead flag agree. *)
Definition samePlace (e e' : Enemy.t) : Prop :=
  Enemy.x e' = Enemy.x e /\ Enemy.y e' = Enemy.y e /\
  Enemy.z e' = Enemy.z e /\ Enemy.scale e' = Enemy.scale e /\
  Enemy.bobTime e' = Enemy.bobTime e.

(** Horizontal distance from an enemy to the point [(px, pz)], as
    [updateEnemies] computes it. *)
Definition distanceTo (px pz : R) (e : Enemy.t) : R :=
  sqrt ((px - Enemy.x e) * (px - Enemy.x e)
        + (pz - Enemy.z e) * (pz - Enemy.z e)).

(** Whether this call of [updateEnemies] spawns. *)
Definition spawnsNow (s : Enemies.t) : bool :=
  (Enemies.g_enemySpawnTimer s + 1 >=? Enemies.ENEMY_SPAWN_RATE)%Z
  && (List.length (Enemies.g_enemies s) <? Enemies.ENEMY_MAX)%nat.

End EnemyMeasures.

(** ** Measures on the audio and GL logs *)

Module Logs.

(** Starts minus stops of the walk loop in a list of audio commands. *)
Fixpoint walkBalance (cs : list Sound.Cmd) : Z :=
  match cs with
  | [] => 0
  | Sound.Play name :: rest =>
      ((if String.eqb name "walk" then 1 else 0) + walkBalance rest)%Z
  | Sound.Pause name :: rest =>
      (walkBalance rest - (if String.eqb name "walk" then 1 else 0))%Z
  end.

(** The frames of a run, each with its [moving] flag, as [tick] hands them
    to [tickWalkSound]. *)
Definition walkFrames (ms : list bool) (a : Sound.t) : Sound.t :=
  fold_left (fun a m => Sound.tickWalkSound m a) ms a.

(** Buffers created minus buffers deleted in a list of GL calls. *)
Fixpoint liveBuffers (cs : list GL.Call) : Z :=
  match cs with
  | [] => 0
  | GL.createBuffer _ :: rest => (1 + liveBuffers rest)%Z
  | GL.deleteBuffer _ :: rest => (liveBuffers rest - 1)%Z
  | _ :: rest => liveBuffers rest
  end.

(** A batch built again and again, each time from a list of descriptors
    and a texture number. *)
Definition rebuilds (jobs : list (list CubeBatch.Desc * Z))
  (st : CubeBatch.t * GL.t) : CubeBatch.t * GL.t :=
  fold_left (fun st job => CubeBatch.build (fst job) (snd job) (fst st)
                                           (snd st))
            jobs st.

(** Whether a batch holds a buffer. *)
Definition holds (b : CubeBatch.t) : Z :=
  match CubeBatch.vbo b with Some _ => 1 | None => 0 end.

(** A value is one of the two ends of the interval of width [|s|] centred
    at [t]. *)
Definition atEnd (t s x : R) : Prop := x = t + s / 2 \/ x = t - s / 2.

End Logs.

(** ** src/main.js: start-up and the input handlers *)

Module Session.

Section Session.

Variable World : Type.
Variable addBlock : Z -> Z -> World -> bool * World.
Variable removeBlock : Z -> Z -> World -> bool * World.
Variable rebuildBatches : World -> World.

(** What the page delivers: the key and mouse events [_setupInput]
    listens to, and animation frames.  [key] is [e.key.toLowerCase()];
    [locked] says whether the pointer is locked to the canvas when the
    event arrives. *)
Inductive Event : Type :=
| KeyDown (key : string)
| KeyUp (key : string)
| MouseDown (button : Z) (locked : bool)
| MouseMove (movementX movementY : R) (locked : bool)
| Frame.

Definition handle (e : Event) (g : Main.Game World) : Main.Game World :=
  match e with
  | KeyDown key => Main.with_keys (Main.setKey key true (Main.g_keys g)) g
  | KeyUp key => Main.with_keys (Main.setKey key false (Main.g_keys g)) g
  | MouseDown button locked =>
      if (button =? 0)%Z && locked then
        let g := Main.with_gun (Gun.shoot (Main.camera g) (Main.gun g)) g in
        Main.with_audio (Sound.playSound "shoot" (Main.audio g)) g
      else g
  | MouseMove movementX movementY locked =>
      if negb locked then g
      else Main.with_camera
             (Camera.mouseRotate movementX movementY (Main.camera g)) g
  | Frame => Main.tick addBlock removeBlock rebuildBatches g
  end.

Definition play (es : list Event) (g : Main.Game World) : Main.Game World :=
  fold_left (fun g e => handle e g) es g.

(** The globals as [main] leaves them, for a random generator and a block
    store. *)
Definition start (rnd : Random) (w : World) : Main.Game World :=
  let '(rnd', es) := Enemies.initEnemies rnd (Enemies.mk [] 0 100 0) in
  Main.mkGame Camera.new (fun _ => false) Gun.initGun es rnd'
              (Sound.initSounds (Sound.mk [] false [])) w.

(** The bounds the game keeps. *)
Definition inBounds (g : Main.Game World) : Prop :=
  GunInv.ok (Main.gun g) /\
  CameraOps.consistent (Main.camera g) /\
  (List.length (Enemies.g_enemies (Main.enemies g)) <= Enemies.ENEMY_MAX)%nat /\
  (0 <= Enemies.g_enemySpawnTimer (Main.enemies g)
   < Enemies.ENEMY_SPAWN_RATE)%Z /\
  0 <= Enemies.g_playerHealth (Main.enemies g) <= 100 /\
  (exists kills : Z,
     (0 <= kills)%Z /\
     Enemies.g_score (Main.enemies g) = (10 * kills)%Z).

(** The keys the handler uses up when it sees them held. *)
Definition oneShot (k : string) : bool :=
  String.eqb k " " || String.eqb k "f" || String.eqb k "t"
  || String.eqb k "y".

(** What a step of the key handler does to the held keys: the keys [used]
    read false after it, the others as before. *)
Definition keysAfter (f : Main.Game World -> Main.Game World)
  (used : string -> bool) : Prop :=
  forall g k,
    Main.g_keys (f g) k = if used k then false else Main.g_keys g k.

(** A step that keeps the game within its bounds. *)
Definition keepsBounds (f : Main.Game World -> Main.Game World) : Prop :=
  forall g, inBounds g -> inBounds (f g).

End Session.

End Session.

(** ** src/sheep.js *)

Module Sheep.

(** [x % y] on numbers: the remainder of the division truncated towards
    zero. *)
Definition trunc (r : R) : Z :=
  if Rle_dec 0 r then Int_part r else (- Int_part (- r))%Z.

Definition rem (x y : R) : R := x - y * IZR (trunc (x / y)).

Definition SC_white : R * R * R := (0.95, 0.95, 0.92).
Definition SC_darkGray : R * R * R := (0.22, 0.22, 0.22).
Definition SC_black : R * R * R := (0.08, 0.08, 0.08).

Definition SHEEP_X : R := 8.
Definition SHEEP_Z : R := 8.

(** The animation state: the module-level variables [drawSheep] updates. *)
Record Anim : Type := mkAnim {
  g_sheepTime : R;
  g_tailAngle : R;
  g_rightArmShoulder : R;
  g_rightArmElbow : R;
  g_leftArmShoulder : R;
  g_leftArmElbow : R;
  g_rightLegHip : R;
  g_rightLegKnee : R;
  g_leftLegHip : R;
  g_leftLegKnee : R
}.

Definition initialAnim : Anim := mkAnim 0 0 0 0 0 0 0 0 0 0.

(** The three meshes a part can be drawn with. *)
Inductive Mesh : Type := g_sheepSphere | g_sheepCylinder | g_sheepCubeData.

(** One [_ss] call: the slot of [_mPool] that holds the matrix, the matrix,
    the colour and the mesh. *)
Record Part : Type := mkPart {
  slot : nat;
  matrix : Matrix4;
  color : R * R * R;
  mesh : Mesh
}.

(** The size of [_mPool]. *)
Definition poolSize : nat := 28.

(** The animation step at the head of [drawSheep]. *)
Definition animate (a : Anim) : Anim :=
  let g_sheepTime := g_sheepTime a + 0.04 in
  let g_tailAngle := sin (g_sheepTime * 2.5) * 20 in
  let walk := sin g_sheepTime in
  mkAnim g_sheepTime g_tailAngle
         (- walk * 15 + 15) (Rabs walk * 10)
         (walk * 15 - 15) (Rabs walk * 10)
         walk (Rabs walk * 0.4)
         (- walk) (Rabs walk * 0.4).

Definition _mBase (a : Anim) : Matrix4 :=
  [SetTranslate SHEEP_X 2.5 SHEEP_Z;
   Rotate (rem (g_sheepTime a * 20) 360) 0 1 0].

Definition _drawArm (base : Matrix4) (xOff : R) (si : nat)
  (shoulder elbow : R) : list Part :=
  [ mkPart si
      (base ++ [Translate xOff 1.2 0; Rotate shoulder 0 0 1;
                Translate 0 (-0.5) 0; Scale 0.3 1.0 0.3])
      SC_darkGray g_sheepCylinder;
    mkPart (si + 1)
      (base ++ [Translate xOff 1.2 0; Rotate shoulder 0 0 1;
                Translate 0 (-1.0) 0; Scale 0.2 0.2 0.2])
      SC_darkGray g_sheepSphere;
    mkPart (si + 2)
      (base ++ [Translate xOff 1.2 0; Rotate shoulder 0 0 1;
                Translate 0 (-1.0) 0; Rotate elbow 0 0 1;
                Translate 0 (-0.5) 0; Scale 0.25 1.0 0.25])
      SC_darkGray g_sheepCylinder;
    mkPart (si + 3)
      (base ++ [Translate xOff 1.2 0; Rotate shoulder 0 0 1;
                Translate 0 (-1.0) 0; Rotate elbow 0 0 1;
                Translate 0 (-1.0) 0; Scale 0.25 0.25 0.25])
      SC_darkGray g_sheepSphere ].

Definition _drawLeg (base : Matrix4) (xOff : R) (si : nat) (hip knee : R)
  : list Part :=
  [ mkPart si
      (base ++ [Translate xOff (-0.5) 0; Rotate hip 1 0 0;
                Translate 0 (-0.5) 0; Scale 0.3 1.0 0.3])
      SC_darkGray g_sheepCylinder;
    mkPart (si + 1)
      (base ++ [Translate xOff (-0.5) 0; Rotate hip 1 0 0;
                Translate 0 (-1.0) 0; Scale 0.25 0.25 0.25])
      SC_darkGray g_sheepSphere;
    mkPart (si + 2)
      (base ++ [Translate xOff (-0.5) 0; Rotate hip 1 0 0;
                Translate 0 (-1.0) 0; Rotate knee 1 0 0;
                Translate 0 (-0.5) 0; Scale 0.25 1.0 0.25])
      SC_darkGray g_sheepCylinder;
    mkPart (si + 3)
      (base ++ [Translate xOff (-0.5) 0; Rotate hip 1 0 0;
                Translate 0 (-1.0) 0; Rotate knee 1 0 0;
                Translate 0 (-1.0) 0; Scale 0.25 0.2 0.3])
      SC_black g_sheepCubeData ].

Definition _drawBody (a : Anim) : list Part :=
  let base := _mBase a in
  [ mkPart 0 (base ++ [Translate 0 0.5 0; Scale 0.7 1.5 0.65])
           SC_white g_sheepSphere;
    mkPart 1 (base ++ [Translate 0 1.75 0.4; Rotate (-45) 1 0 0;
                       Scale 0.40 0.65 0.40])
           SC_darkGray g_sheepSphere;
    mkPart 2 (base ++ [Translate 0.15 1.75 0.85; Rotate 55 1 0 0;
                       Scale 0.1 0.05 0.1])
           SC_white g_sheepSphere;
    mkPart 3 (base ++ [Translate (-0.15) 1.75 0.85; Rotate 55 1 0 0;
                       Scale 0.1 0.05 0.1])
           SC_white g_sheepSphere;
    mkPart 4 (base ++ [Translate 0.5 1.75 0; Rotate (-90) 0 1 0;
                       Rotate 45 1 0 0; Scale 0.3 0.65 0.2])
           SC_darkGray g_sheepSphere;
    mkPart 5 (base ++ [Translate (-0.5) 1.75 0; Rotate (-90) 0 1 0;
                       Rotate (-45) 1 0 0; Scale 0.3 0.65 0.2])
           SC_darkGray g_sheepSphere;
    mkPart 6 (base ++ [Translate 0 (-0.2) (-0.6);
                       Rotate (g_tailAngle a) 1 0 0;
                       Translate 0 0 (-0.2); Scale 0.15 0.15 0.4])
           SC_white g_sheepSphere ]
  ++ _drawArm base 0.65 7 (g_rightArmShoulder a) (g_rightArmElbow a)
  ++ _drawArm base (-0.65) 11 (g_leftArmShoulder a) (g_leftArmElbow a)
  ++ _drawLeg base 0.4 15 (g_rightLegHip a) (g_rightLegKnee a)
  ++ _drawLeg base (-0.4) 19 (g_leftLegHip a) (g_leftLegKnee a).

(** [drawSheep(gl)]: the new animation state and the [_ss] calls made. *)
Definition drawSheep (g_sheepProgram : bool) (a : Anim) : Anim * list Part :=
  if negb g_sheepProgram then (a, [])
  else let a := animate a in (a, _drawBody a).

(** A mesh as [_up] receives it: positions and normals, three numbers a
    vertex, and the triangle indices. *)
Record Geometry : Type := mkGeometry {
  pos : list R;
  nor : list R;
  idx : list nat
}.

Definition numIndices (g : Geometry) : nat := List.length (idx g).
Definition vertexCount (g : Geometry) : nat := (List.length (pos g) / 3)%nat.

(** The sphere of [_initSheepSphere], for a number [DIV] of divisions. *)
Definition sphereVertex (DIV j i : nat) : list R :=
  let aj := INR j * PI / INR DIV in
  let sj := sin aj in
  let cj := cos aj in
  let ai := INR i * 2 * PI / INR DIV in
  [sin ai * sj; cj; cos ai * sj].

Definition sphereGeometry (DIV : nat) : Geometry :=
  let verts :=
    flat_map (fun j => flat_map (sphereVertex DIV j) (seq 0 (DIV + 1)))
             (seq 0 (DIV + 1)) in
  mkGeometry verts verts
    (flat_map
       (fun j =>
          flat_map
            (fun i =>
               let p1 := (j * (DIV + 1) + i)%nat in
               let p2 := (p1 + (DIV + 1))%nat in
               [p1; p2; p1 + 1; p1 + 1; p2; p2 + 1]%nat)
            (seq 0 DIV))
       (seq 0 DIV)).

Definition _initSheepSphere : Geometry := sphereGeometry 16.

(** The cylinder of [_initSheepCylinder], for a number [SEG] of segments:
    the side, then the bottom cap, then the top cap. *)
Definition cylAngle (SEG i : nat) : R := INR i / INR SEG * PI * 2.

Definition cylSidePos (SEG : nat) : list R :=
  flat_map (fun i => let x := cos (cylAngle SEG i) * 0.5 in
                     let z := sin (cylAngle SEG i) * 0.5 in
                     [x; -0.5; z; x; 0.5; z]) (seq 0 (SEG + 1)).

Definition cylSideNor (SEG : nat) : list R :=
  flat_map (fun i => let x := cos (cylAngle SEG i) * 0.5 in
                     let z := sin (cylAngle SEG i) * 0.5 in
                     [x * 2; 0; z * 2; x * 2; 0; z * 2]) (seq 0 (SEG + 1)).

Definition cylSideIdx (SEG : nat) : list nat :=
  flat_map (fun i => let p := (i * 2)%nat in
                     [p; p + 2; p + 1; p + 1; p + 2; p + 3]%nat) (seq 0 SEG).

Definition cylCapPos (SEG : nat) (y : R) : list R :=
  [0; y; 0]
  ++ flat_map (fun i => [cos (cylAngle SEG i) * 0.5; y;
                         sin (cylAngle SEG i) * 0.5]) (seq 0 (SEG + 1)).

Definition cylCapNor (SEG : nat) (ny : R) : list R :=
  [0; ny; 0] ++ flat_map (fun _ => [0; ny; 0]) (seq 0 (SEG + 1)).

Definition cylinderGeometry (SEG : nat) : Geometry :=
  let pos0 := cylSidePos SEG in
  let bc := (List.length pos0 / 3)%nat in
  let pos1 := pos0 ++ cylCapPos SEG (-0.5) in
  let bottomIdx :=
    flat_map (fun i => [bc; bc + i + 1; bc + i + 2]%nat) (seq 0 SEG) in
  let tc := (List.length pos1 / 3)%nat in
  let pos2 := pos1 ++ cylCapPos SEG 0.5 in
  let topIdx :=
    flat_map (fun i => [tc; tc + i + 2; tc + i + 1]%nat) (seq 0 SEG) in
  mkGeometry pos2
             (cylSideNor SEG ++ cylCapNor SEG (-1) ++ cylCapNor SEG 1)
             (cylSideIdx SEG ++ bottomIdx ++ topIdx).

Definition _initSheepCylinder : Geometry := cylinderGeometry 12.

Definition _initSheepCube : Geometry :=
  mkGeometry
    [-0.5;-0.5;0.5;0.5;-0.5;0.5;0.5;0.5;0.5;-0.5;0.5;0.5;-0.5;-0.5;-0.5;
     -0.5;0.5;-0.5;0.5;0.5;-0.5;0.5;-0.5;-0.5;-0.5;0.5;-0.5;-0.5;0.5;0.5;
     0.5;0.5;0.5;0.5;0.5;-0.5;-0.5;-0.5;-0.5;0.5;-0.5;-0.5;0.5;-0.5;0.5;
     -0.5;-0.5;0.5;0.5;-0.5;-0.5;0.5;0.5;-0.5;0.5;0.5;0.5;0.5;-0.5;0.5;
     -0.5;-0.5;-0.5;-0.5;-0.5;0.5;-0.5;0.5;0.5;-0.5;0.5;-0.5]
    [0;0;1;0;0;1;0;0;1;0;0;1;0;0;-1;0;0;-1;0;0;-1;0;0;-1;0;1;0;0;1;0;0;1;0;
     0;1;0;0;-1;0;0;-1;0;0;-1;0;0;-1;0;1;0;0;1;0;0;1;0;0;1;0;0;-1;0;0;-1;0;
     0;-1;0;0;-1;0;0]
    [0;1;2;0;2;3;4;5;6;4;6;7;8;9;10;8;10;11;12;13;14;12;14;15;16;17;18;16;
     18;19;20;21;22;20;22;23]%nat.

(** A mesh the GPU can draw: as many normals as positions, whole
    vertices, whole triangles, and every index that of a vertex and small
    enough for a 16-bit index buffer. *)
Definition wellFormed (g : Geometry) : Prop :=
  List.length (nor g) = List.length (pos g) /\
  List.length (pos g) = (3 * vertexCount g)%nat /\
  (exists triangles, numIndices g = (3 * triangles)%nat) /\
  Forall (fun i => (i < vertexCount g)%nat /\ (Z.of_nat i < 65536)%Z)
         (idx g).

End Sheep.

(** * Properties *)

Module JSFacts.

Lemma lt_true x y : JS.lt x y = true <-> x < y.
Proof. unfold JS.lt. destruct (Rlt_dec x y); split; intros; try easy. Qed.

Lemma lt_false x y : JS.lt x y = false <-> y <= x.
Proof.
  unfold JS.lt. destruct (Rlt_dec x y); split; intros; try easy; lra.
Qed.

Lemma le_true x y : JS.le x y = true <-> x <= y.
Proof. unfold JS.le. destruct (Rle_dec x y); split; intros; try easy. Qed.

Lemma le_false x y : JS.le x y = false <-> y < x.
Proof.
  unfold JS.le. destruct (Rle_dec x y); split; intros; try easy; lra.
Qed.

Lemma gt_true x y : JS.gt x y = true <-> y < x.
Proof. apply lt_true. Qed.

Lemma gt_false x y : JS.gt x y = false <-> x <= y.
Proof. apply lt_false. Qed.

Lemma neq_refl x : JS.neq x x = false.
Proof. unfold JS.neq. destruct (Req_dec_T x x); congruence. Qed.

End JSFacts.

Module CameraFacts.

Import Camera Spec.

(** *** Pitch *)

(** One [mouseRotate] leaves the pitch clamped, whatever it was before. *)
Lemma mouseRotate_clamps (dx dy : R) (c : t) :
  -89 <= pitch (mouseRotate dx dy c) <= 89.
Proof.
  unfold mouseRotate. cbv zeta.
  destruct (JS.gt _ 89) eqn:Hhi.
  - destruct (JS.lt _ (-89)) eqn:Hlo; cbn [pitch with_pitch with_yaw]; lra.
  - apply JSFacts.gt_false in Hhi.
    destruct (JS.lt _ (-89)) eqn:Hlo; cbn [pitch with_pitch with_yaw] in *;
      try lra.
    apply JSFacts.lt_false in Hlo. lra.
Qed.

(** C6: from a pitch within [-89, 89], any finite sequence of [mouseRotate]
    calls, with any deltas, leaves the pitch within [-89, 89]; the clamp is
    part of every call. *)
Theorem pitch_invariant (ds : list (R * R)) (c : t) :
  -89 <= pitch c <= 89 ->
  -89 <= pitch (mouseRotates ds c) <= 89.
Proof.
  unfold mouseRotates. revert c.
  induction ds as [|[dx dy] ds IH]; intros c Hc; cbn [fold_left fst snd].
  - exact Hc.
  - apply IH, mouseRotate_clamps.
Qed.

Lemma pitch_invariant_witness :
  -89 <= pitch new <= 89 /\
  -89 <= pitch (mouseRotates [(10, -4000); (0, 4000); (3, 7)] new) <= 89.
Proof.
  assert (H : -89 <= pitch new <= 89) by (cbn; lra).
  split; [exact H | exact (pitch_invariant _ new H)].
Defined.

(** *** Directions *)

(** C7: with theta the yaw and phi the pitch (in radians), the look
    direction is (cos theta cos phi, sin phi, sin theta cos phi), the right
    direction is (sin theta, 0, - cos theta), and right is perpendicular to
    the horizontal forward direction (cos theta, 0, sin theta) and to
    world-up. *)
Theorem look_and_right_directions (c : t) :
  let theta := rad (yaw c) in
  let phi := rad (pitch c) in
  lookDirection c
    = Some (vec3 (cos theta * cos phi) (sin phi) (sin theta * cos phi)) /\
  _right c = vec3 (sin theta) 0 (- cos theta) /\
  _fwd c = vec3 (cos theta) 0 (sin theta) /\
  dot (_right c) (_fwd c) = 0 /\
  dot (_right c) worldUp = 0.
Proof.
  cbv zeta. unfold lookDirection, updateView, _right, _fwd, rad, dot, worldUp.
  cbn [viewMatrix with_viewMatrix v0 v1 v2].
  repeat split; try ring.
  f_equal. f_equal; ring.
Qed.

(** *** Jump and gravity *)

Lemma heightGain_S (J g : R) (k : nat) :
  heightGain J g (S k) = heightGain J g k + (J - INR k * g - g).
Proof. unfold heightGain. rewrite S_INR. field. Qed.

Lemma jump_inFlight (c : t) :
  grounded c = true -> v1 (eye c) = groundY c -> jump c = inFlight c 0.
Proof.
  intros Hg He. unfold jump, inFlight, heightGain. rewrite Hg.
  destruct c as [f s p [e0 e1 e2] y pi vm v gr gy J g]. cbn in *. subst.
  unfold with_grounded, with_velY. cbn.
  f_equal; try lra. f_equal; lra.
Qed.

Lemma applyGravity_inFlight_up (c : t) (k : nat) :
  0 < heightGain (jumpForce c) (gravity c) (S k) ->
  applyGravity (inFlight c k) = inFlight c (S k).
Proof.
  intros Hup. unfold applyGravity, inFlight.
  cbn [grounded negb with_velY with_eye velY eye gravity groundY v0 v1 v2
       fov speed panAngle yaw pitch viewMatrix jumpForce].
  rewrite heightGain_S in *.
  assert (Hle : JS.le (groundY c + heightGain (jumpForce c) (gravity c) k +
                       (jumpForce c - INR k * gravity c - gravity c))
                      (groundY c) = false)
    by (apply JSFacts.le_false; lra).
  rewrite Hle. unfold with_eye, with_velY.
  cbn [grounded velY eye gravity groundY v0 v1 v2
       fov speed panAngle yaw pitch viewMatrix jumpForce].
  rewrite S_INR. f_equal; try lra. f_equal; lra.
Qed.

Lemma applyGravity_inFlight_down (c : t) (k : nat) :
  heightGain (jumpForce c) (gravity c) (S k) <= 0 ->
  applyGravity (inFlight c k) = landed c.
Proof.
  intros Hdown. unfold applyGravity, inFlight, landed.
  cbn [grounded negb with_velY with_eye velY eye gravity groundY v0 v1 v2
       fov speed panAngle yaw pitch viewMatrix jumpForce].
  rewrite heightGain_S in *.
  assert (Hle : JS.le (groundY c + heightGain (jumpForce c) (gravity c) k +
                       (jumpForce c - INR k * gravity c - gravity c))
                      (groundY c) = true)
    by (apply JSFacts.le_true; lra).
  rewrite Hle. reflexivity.
Qed.

(** As long as the closed form stays above the ground, the camera follows
    it. *)
Lemma flight_follows (c : t) (k : nat) :
  grounded c = true -> v1 (eye c) = groundY c ->
  (forall j, (1 <= j <= k)%nat ->
             0 < heightGain (jumpForce c) (gravity c) j) ->
  applyGravityN k (jump c) = inFlight c k.
Proof.
  intros Hg He. induction k as [|k IH]; intros Hup; cbn [applyGravityN].
  - now apply jump_inFlight.
  - rewrite IH by (intros j Hj; apply Hup; lia).
    apply applyGravity_inFlight_up, Hup. lia.
Qed.

(** The sign of the closed form, by the integer [landingFrames] is built
    from. *)
Lemma heightGain_sign (J g : R) (j : nat) :
  0 < g -> (1 <= j)%nat ->
  heightGain J g j = INR j * (g / 2) * (2 * J / g - (INR j + 1)).
Proof. intros Hg Hj. unfold heightGain. field. lra. Qed.

Lemma landingFrames_pos (J g : R) : (1 <= landingFrames J g)%nat.
Proof. unfold landingFrames. lia. Qed.

Lemma landingFrames_down (J g : R) :
  0 < g -> heightGain J g (landingFrames J g) <= 0.
Proof.
  intros Hg. pose proof (landingFrames_pos J g) as Hpos.
  rewrite heightGain_sign by assumption.
  assert (Hn : 2 * J / g <= INR (landingFrames J g) + 1).
  { unfold landingFrames. rewrite INR_IZR_INZ, Z2Nat.id by lia.
    destruct (archimed (- (2 * J / g))) as [_ Hup].
    assert (IZR (- up (- (2 * J / g))) <= IZR (Z.max 1 (- up (- (2 * J / g)))))
      by (apply IZR_le; lia).
    rewrite opp_IZR in H. lra. }
  assert (0 < INR (landingFrames J g)) by (apply lt_0_INR; lia).
  assert (0 < INR (landingFrames J g) * (g / 2)) by (apply Rmult_lt_0_compat; lra).
  nra.
Qed.

Lemma landingFrames_up (J g : R) (j : nat) :
  0 < g -> (1 <= j < landingFrames J g)%nat -> 0 < heightGain J g j.
Proof.
  intros Hg [Hj Hlt]. rewrite heightGain_sign by assumption.
  assert (Hn : INR j + 1 < 2 * J / g).
  { unfold landingFrames in Hlt.
    destruct (archimed (- (2 * J / g))) as [Hup _].
    assert (Hz : (Z.of_nat j + 1 <= - up (- (2 * J / g)))%Z) by lia.
    apply IZR_le in Hz. rewrite plus_IZR, opp_IZR, <- INR_IZR_INZ in Hz.
    lra. }
  assert (0 < INR j) by (apply lt_0_INR; lia).
  assert (0 < INR j * (g / 2)) by (apply Rmult_lt_0_compat; lra).
  apply Rmult_lt_0_compat; lra.
Qed.

Lemma inFlight_not_grounded (c : t) (k : nat) : grounded (inFlight c k) = false.
Proof. reflexivity. Qed.

(** C8: a grounded camera that jumps and then takes [applyGravity] frame
    after frame is in the air for [landingFrames jumpForce gravity - 1]
    frames and on the next one is back at [groundY] with vertical velocity 0
    and [grounded] set; the frame count is a function of the two constants
    alone. *)
Theorem jump_then_gravity_lands (c : t) :
  grounded c = true -> v1 (eye c) = groundY c -> 0 < gravity c ->
  let n := landingFrames (jumpForce c) (gravity c) in
  (forall k, (k < n)%nat -> grounded (applyGravityN k (jump c)) = false) /\
  v1 (eye (applyGravityN n (jump c))) = groundY c /\
  velY (applyGravityN n (jump c)) = 0 /\
  grounded (applyGravityN n (jump c)) = true.
Proof.
  intros Hgr He Hg n.
  assert (Hfly : forall k, (k < n)%nat ->
                   applyGravityN k (jump c) = inFlight c k).
  { intros k Hk. apply flight_follows; try assumption.
    intros j Hj. apply landingFrames_up; [assumption|]. fold n. lia. }
  assert (Hland : applyGravityN n (jump c) = landed c).
  { pose proof (landingFrames_pos (jumpForce c) (gravity c)) as Hpos.
    fold n in Hpos. destruct n as [|m] eqn:En; [lia|].
    cbn [applyGravityN]. rewrite Hfly by lia.
    apply applyGravity_inFlight_down. rewrite <- En.
    now apply landingFrames_down. }
  split.
  - intros k Hk. now rewrite Hfly.
  - rewrite Hland. cbn. auto.
Qed.

Lemma landingFrames_new : landingFrames (jumpForce new) (gravity new) = 29%nat.
Proof.
  unfold landingFrames. cbn [jumpForce gravity new].
  replace (- (2 * 0.18 / 0.012)) with (-30) by lra.
  rewrite <- (tech_up (-30) (-29)); [reflexivity | lra | lra].
Qed.

Lemma jump_then_gravity_lands_witness :
  (forall k, (k < 29)%nat -> grounded (applyGravityN k (jump new)) = false) /\
  v1 (eye (applyGravityN 29 (jump new))) = groundY new /\
  velY (applyGravityN 29 (jump new)) = 0 /\
  grounded (applyGravityN 29 (jump new)) = true.
Proof.
  rewrite <- landingFrames_new.
  apply (jump_then_gravity_lands new);
    [reflexivity | reflexivity | cbn; lra].
Defined.

End CameraFacts.

Module GunFacts.

Import Gun Spec.

(** *** What one advance does to the bullet list *)

Lemma updateBullets_bullets (g : t) :
  g_bullets (updateBullets g) = stepBullets (g_bullets g).
Proof. reflexivity. Qed.

Lemma updateBulletsN_bullets (n : nat) (g : t) :
  g_bullets (updateBulletsN n g) = stepBulletsN n (g_bullets g).
Proof.
  induction n as [|n IH]; cbn [updateBulletsN stepBulletsN]; [reflexivity|].
  now rewrite updateBullets_bullets, IH.
Qed.

Lemma stepBullets_app (l1 l2 : list Bullet.t) :
  stepBullets (l1 ++ l2) = stepBullets l1 ++ stepBullets l2.
Proof. unfold stepBullets. now rewrite map_app, filter_app. Qed.

Lemma iter_stepBullets_app (n : nat) (l1 l2 : list Bullet.t) :
  stepBulletsN n (l1 ++ l2)
  = stepBulletsN n l1 ++ stepBulletsN n l2.
Proof.
  induction n as [|n IH]; cbn [stepBulletsN]; [reflexivity|].
  now rewrite IH, stepBullets_app.
Qed.

Lemma iter_stepBullets_nil (n : nat) : stepBulletsN n [] = [].
Proof. induction n as [|n IH]; cbn [stepBulletsN]; [|rewrite IH]; reflexivity. Qed.

Lemma advanceBulletN_life (n : nat) (b : Bullet.t) :
  Bullet.life (advanceBulletN n b) = (Bullet.life b - Z.of_nat n)%Z.
Proof.
  induction n as [|n IH]; cbn [advanceBulletN].
  - lia.
  - unfold advanceBullet at 1. cbn [Bullet.life]. lia.
Qed.

(** A bullet alone in the list: present, moved [n] times, until its life
    has run out. *)
Lemma iter_stepBullets_single (n : nat) (b : Bullet.t) :
  (0 < Bullet.life b)%Z ->
  stepBulletsN n [b]
  = if (Z.of_nat n <? Bullet.life b)%Z then [advanceBulletN n b] else [].
Proof.
  intros Hpos. induction n as [|n IH]; cbn [stepBulletsN advanceBulletN].
  - destruct (Z.ltb_spec (Z.of_nat 0) (Bullet.life b)); [reflexivity | lia].
  - rewrite IH.
    destruct (Z.ltb_spec (Z.of_nat n) (Bullet.life b)) as [Hn|Hn];
      destruct (Z.ltb_spec (Z.of_nat (S n)) (Bullet.life b)) as [HS|HS];
      try lia; try reflexivity.
    + unfold stepBullets. cbn [map filter].
      replace (Bullet.life (advanceBullet (advanceBulletN n b)) >? 0)%Z
        with true; [reflexivity|].
      symmetry. apply Z.gtb_lt.
      change (advanceBullet (advanceBulletN n b)) with (advanceBulletN (S n) b).
      rewrite advanceBulletN_life. lia.
    + unfold stepBullets. cbn [map filter].
      replace (Bullet.life (advanceBullet (advanceBulletN n b)) >? 0)%Z
        with false; [reflexivity|].
      symmetry. rewrite Z.gtb_ltb. apply Z.ltb_ge.
      change (advanceBullet (advanceBulletN n b)) with (advanceBulletN (S n) b).
      rewrite advanceBulletN_life. lia.
Qed.

(** The survivors of one advance are the bullets with more than one frame
    left, each moved once. *)
Lemma stepBullets_survivors (l : list Bullet.t) :
  stepBullets l
  = map advanceBullet (filter (fun b => (Bullet.life b >? 1)%Z) l).
Proof.
  unfold stepBullets. induction l as [|b l IH]; cbn [map filter]; [reflexivity|].
  rewrite IH. unfold advanceBullet at 1. cbn [Bullet.life].
  destruct (Z.gtb_spec (Bullet.life b - 1) 0), (Z.gtb_spec (Bullet.life b) 1);
    try lia; reflexivity.
Qed.

Lemma shoot_ready (camera : Camera.t) (g : t) :
  (g_shootCooldown g <= 0)%Z ->
  shoot camera g = mk (g_bullets g ++ [firedBullet camera]) SHOOT_COOLDOWN.
Proof.
  intros Hcd. unfold shoot.
  destruct (Z.gtb_spec (g_shootCooldown g) 0); [lia | reflexivity].
Qed.

Lemma shoot_blocked (camera : Camera.t) (g : t) :
  (0 < g_shootCooldown g)%Z -> shoot camera g = g.
Proof.
  intros Hcd. unfold shoot.
  destruct (Z.gtb_spec (g_shootCooldown g) 0); [reflexivity | lia].
Qed.

(** C4: one advance takes exactly 1 off the life of every bullet and keeps
    those with life left; a bullet just fired (life [BULLET_LIFE] = 80) is in
    the list, moved [k] times and with life [80 - k], after each of the
    advances [k] = 0 .. 79, and is gone from the 80th advance on, the one on
    which its life reaches 0. *)
Theorem bullet_lifetime (camera : Camera.t) (g : t) :
  (g_shootCooldown g <= 0)%Z ->
  let b := firedBullet camera in
  g_bullets (shoot camera g) = g_bullets g ++ [b] /\
  Bullet.life b = BULLET_LIFE /\
  (forall b', Bullet.life (advanceBullet b') = (Bullet.life b' - 1)%Z) /\
  (forall g', g_bullets (updateBullets g')
              = map advanceBullet
                    (filter (fun b' => (Bullet.life b' >? 1)%Z)
                            (g_bullets g'))) /\
  (forall k, (k < 80)%nat ->
     g_bullets (updateBulletsN k (shoot camera g))
     = g_bullets (updateBulletsN k g) ++ [advanceBulletN k b] /\
     Bullet.life (advanceBulletN k b) = (80 - Z.of_nat k)%Z) /\
  (forall k, (80 <= k)%nat ->
     g_bullets (updateBulletsN k (shoot camera g))
     = g_bullets (updateBulletsN k g)).
Proof.
  intros Hcd b. rewrite (shoot_ready camera g Hcd).
  assert (Hlife : Bullet.life b = 80%Z) by reflexivity.
  assert (Hiter : forall k,
    g_bullets (updateBulletsN k (mk (g_bullets g ++ [b]) SHOOT_COOLDOWN))
    = g_bullets (updateBulletsN k g)
      ++ (if (Z.of_nat k <? 80)%Z then [advanceBulletN k b] else [])).
  { intros k. rewrite !updateBulletsN_bullets. cbn [g_bullets].
    rewrite iter_stepBullets_app, iter_stepBullets_single, Hlife;
      [reflexivity | rewrite Hlife; lia]. }
  repeat split.
  - intros g'. rewrite updateBullets_bullets. apply stepBullets_survivors.
  - rewrite Hiter. destruct (Z.ltb_spec (Z.of_nat k) 80); [reflexivity | lia].
  - rewrite advanceBulletN_life, Hlife. reflexivity.
  - intros k Hk. rewrite Hiter.
    destruct (Z.ltb_spec (Z.of_nat k) 80); [lia | apply app_nil_r].
Qed.

Lemma bullet_lifetime_witness :
  let b := firedBullet Camera.new in
  g_bullets (shoot Camera.new initGun) = g_bullets initGun ++ [b] /\
  Bullet.life b = BULLET_LIFE /\
  (forall b', Bullet.life (advanceBullet b') = (Bullet.life b' - 1)%Z) /\
  (forall g', g_bullets (updateBullets g')
              = map advanceBullet
                    (filter (fun b' => (Bullet.life b' >? 1)%Z)
                            (g_bullets g'))) /\
  (forall k, (k < 80)%nat ->
     g_bullets (updateBulletsN k (shoot Camera.new initGun))
     = g_bullets (updateBulletsN k initGun) ++ [advanceBulletN k b] /\
     Bullet.life (advanceBulletN k b) = (80 - Z.of_nat k)%Z) /\
  (forall k, (80 <= k)%nat ->
     g_bullets (updateBulletsN k (shoot Camera.new initGun))
     = g_bullets (updateBulletsN k initGun)).
Proof.
  apply (bullet_lifetime Camera.new initGun). cbn. lia.
Defined.

(** *** Cooldown *)

Lemma updateBullets_cooldown (g : t) :
  (0 < g_shootCooldown g)%Z ->
  g_shootCooldown (updateBullets g) = (g_shootCooldown g - 1)%Z.
Proof.
  intros H. unfold updateBullets. cbn [g_shootCooldown].
  destruct (Z.gtb_spec (g_shootCooldown g) 0); [reflexivity | lia].
Qed.

Lemma updateBulletsN_shift (n : nat) (g : t) :
  updateBulletsN n (updateBullets g) = updateBullets (updateBulletsN n g).
Proof.
  induction n as [|n IH]; cbn [updateBulletsN]; [reflexivity | now rewrite IH].
Qed.

(** While the counter is above zero every [shoot] among the operations is
    a no-op: the operations amount to their advances alone. *)
Lemma runOps_cooling (ops : list GunOp) (g : t) :
  (Z.of_nat (advances ops) < g_shootCooldown g)%Z ->
  runOps ops g = updateBulletsN (advances ops) g /\
  g_shootCooldown (runOps ops g)
  = (g_shootCooldown g - Z.of_nat (advances ops))%Z.
Proof.
  unfold runOps. revert g.
  induction ops as [|[cam|] ops IH]; intros g Hlt;
    cbn [fold_left runOp advances updateBulletsN] in *.
  - split; [reflexivity | lia].
  - rewrite shoot_blocked by lia. now apply IH.
  - assert (Hcd := updateBullets_cooldown g ltac:(lia)).
    destruct (IH (updateBullets g)) as [Hrun Hc]; [lia|].
    split; [rewrite Hrun, updateBulletsN_shift; reflexivity
           | rewrite Hc, Hcd; lia].
Qed.

(** C5: a [shoot] that finds the counter at zero appends a bullet and sets
    the counter to [SHOOT_COOLDOWN] = 12; from then on, until 12 advances
    have passed, every [shoot] appends nothing and changes nothing, however
    the calls are interleaved with the advances; the 12th advance brings the
    counter back to zero and the next [shoot] fires again. *)
Theorem cooldown_gates_fire (camera : Camera.t) (g : t) :
  (g_shootCooldown g <= 0)%Z ->
  let g1 := shoot camera g in
  g_bullets g1 = g_bullets g ++ [firedBullet camera] /\
  g_shootCooldown g1 = SHOOT_COOLDOWN /\
  (forall ops camera', (advances ops < 12)%nat ->
     runOps ops g1 = updateBulletsN (advances ops) g1 /\
     shoot camera' (runOps ops g1) = runOps ops g1) /\
  (forall ops camera', advances ops = 11%nat ->
     let g2 := runOps (ops ++ [Advance]) g1 in
     g_shootCooldown g2 = 0%Z /\
     shoot camera' g2
     = mk (g_bullets g2 ++ [firedBullet camera']) SHOOT_COOLDOWN).
Proof.
  intros Hcd g1. subst g1. rewrite (shoot_ready camera g Hcd).
  set (g1 := mk (g_bullets g ++ [firedBullet camera]) SHOOT_COOLDOWN).
  assert (Hc1 : g_shootCooldown g1 = 12%Z) by reflexivity.
  split; [reflexivity|]. split; [reflexivity|]. split.
  - intros ops camera' Hlt.
    destruct (runOps_cooling ops g1) as [Hrun Hc]; [rewrite Hc1; lia|].
    split; [exact Hrun|]. apply shoot_blocked. rewrite Hc, Hc1. lia.
  - intros ops camera' H11 g2.
    destruct (runOps_cooling ops g1) as [Hrun Hc]; [rewrite Hc1; lia|].
    assert (Hg2 : g_shootCooldown g2 = 0%Z).
    { subst g2. unfold runOps in *. rewrite fold_left_app.
      cbn [fold_left runOp]. rewrite updateBullets_cooldown; lia. }
    split; [exact Hg2|]. apply shoot_ready. lia.
Qed.

Lemma cooldown_gates_fire_witness :
  let g1 := shoot Camera.new initGun in
  g_bullets g1 = g_bullets initGun ++ [firedBullet Camera.new] /\
  g_shootCooldown g1 = SHOOT_COOLDOWN /\
  (forall ops camera', (advances ops < 12)%nat ->
     runOps ops g1 = updateBulletsN (advances ops) g1 /\
     shoot camera' (runOps ops g1) = runOps ops g1) /\
  (forall ops camera', advances ops = 11%nat ->
     let g2 := runOps (ops ++ [Advance]) g1 in
     g_shootCooldown g2 = 0%Z /\
     shoot camera' g2
     = mk (g_bullets g2 ++ [firedBullet camera']) SHOOT_COOLDOWN).
Proof.
  apply (cooldown_gates_fire Camera.new initGun). cbn. lia.
Defined.

End GunFacts.

Module EnemiesFacts.

Import Enemies Spec.

(** *** The inner loop of hit resolution *)

Lemma firstTarget_Some (b : Bullet.t) (es : list Enemy.t) (i : nat) :
  firstTarget b es = Some i ->
  exists en, nth_error es i = Some en /\ Enemy.dead en = false /\
             inRange b en = true.
Proof.
  revert i. induction es as [|e es IH]; intros i H; cbn [firstTarget] in H.
  - discriminate.
  - destruct (negb (Enemy.dead e) && inRange b e) eqn:Hhit.
    + injection H as <-. apply andb_true_iff in Hhit as [Hd Hr].
      apply negb_true_iff in Hd. exists e. cbn. auto.
    + destruct (firstTarget b es) as [j|] eqn:Hj; [|discriminate].
      injection H as <-. destruct (IH j eq_refl) as (en & Hn & Hd & Hr).
      exists en. cbn. auto.
Qed.

Lemma hitScan_miss (b : Bullet.t) (es : list Enemy.t) (score : Z)
  (a : Sound.t) :
  firstTarget b es = None -> hitScan b es score a = (es, score, a, false).
Proof.
  induction es as [|e es IH]; intros H; cbn [firstTarget hitScan] in *.
  - reflexivity.
  - destruct (Enemy.dead e); cbn [negb andb] in H.
    + destruct (firstTarget b es); [discriminate|]. now rewrite IH.
    + destruct (inRange b e); [discriminate|].
      destruct (firstTarget b es); [discriminate|]. now rewrite IH.
Qed.

Lemma hitScan_hit (b : Bullet.t) (es : list Enemy.t) (score : Z)
  (a : Sound.t) (i : nat) (en : Enemy.t) :
  firstTarget b es = Some i -> nth_error es i = Some en ->
  hitScan b es score a
  = (setNth i (fst (fst (damage en score a))) es,
     snd (fst (damage en score a)), snd (damage en score a), true).
Proof.
  revert i. induction es as [|e es IH]; intros i H Hn;
    cbn [firstTarget hitScan] in *.
  - discriminate.
  - destruct (Enemy.dead e); cbn [negb andb] in H.
    + destruct (firstTarget b es) as [j|] eqn:Hj; [|discriminate].
      injection H as <-. cbn in Hn. rewrite (IH j eq_refl Hn). reflexivity.
    + destruct (inRange b e).
      * injection H as <-. cbn in Hn. injection Hn as ->.
        cbn [setNth]. now destruct (damage en score a) as [[en' sc'] a'].
      * destruct (firstTarget b es) as [j|] eqn:Hj; [|discriminate].
        injection H as <-. cbn in Hn. rewrite (IH j eq_refl Hn). reflexivity.
Qed.

Lemma nth_error_setNth (i : nat) (e en : Enemy.t) (es : list Enemy.t) :
  nth_error es i = Some en -> nth_error (setNth i e es) i = Some e.
Proof.
  revert i. induction es as [|e0 es IH]; intros [|i] H; cbn in *;
    try discriminate; auto.
Qed.

(** One bullet that lands on enemy [i]: the bullet is used up and the
    enemy, the score and the audio are what [damage] makes of them. *)
Lemma checkBulletHits_one_hit (b : Bullet.t) (s : t) (a : Sound.t) (i : nat)
  (en : Enemy.t) :
  firstTarget b (g_enemies s) = Some i -> nth_error (g_enemies s) i = Some en ->
  checkBulletHits [b] s a
  = ([],
     mk (setNth i (fst (fst (damage en (g_score s) a))) (g_enemies s))
        (g_enemySpawnTimer s) (g_playerHealth s)
        (snd (fst (damage en (g_score s) a))),
     snd (damage en (g_score s) a)).
Proof.
  intros Ht Hn. unfold checkBulletHits. cbn [hitLoop].
  now rewrite (hitScan_hit b (g_enemies s) (g_score s) a Ht Hn).
Qed.

Lemma damage_from_2 (en : Enemy.t) (score : Z) (a : Sound.t) :
  Enemy.health en = 2%Z -> Enemy.dead en = false ->
  damage en score a = (wounded en 1 false, score, a).
Proof. intros Hh Hd. unfold damage, wounded. now rewrite Hh, Hd. Qed.

Lemma damage_from_1 (en : Enemy.t) (score : Z) (a : Sound.t) :
  Enemy.health en = 1%Z ->
  damage en score a
  = (wounded en 0 true, (score + 10)%Z, Sound.playSound "enemy_die" a).
Proof. intros Hh. unfold damage, wounded. now rewrite Hh. Qed.

(** C3: an enemy with health 2 is not dead after one resolved hit and the
    score has not moved; the second resolved hit brings its health to 0,
    sets its dead flag and adds 10 to the score; once dead it is no bullet's
    target any more, so the 10 is added once. *)
Theorem two_hits_kill (s : t) (a : Sound.t) (b1 b2 : Bullet.t) (i : nat)
  (en : Enemy.t) :
  nth_error (g_enemies s) i = Some en ->
  Enemy.health en = 2%Z -> Enemy.dead en = false ->
  firstTarget b1 (g_enemies s) = Some i ->
  let r1 := checkBulletHits [b1] s a in
  firstTarget b2 (g_enemies (hitState r1)) = Some i ->
  let r2 := checkBulletHits [b2] (hitState r1) (hitAudio r1) in
  (hitSurvivors r1 = [] /\
   nth_error (g_enemies (hitState r1)) i = Some (wounded en 1 false) /\
   g_score (hitState r1) = g_score s) /\
  (hitSurvivors r2 = [] /\
   nth_error (g_enemies (hitState r2)) i = Some (wounded en 0 true) /\
   g_score (hitState r2) = (g_score s + 10)%Z) /\
  (forall b, firstTarget b (g_enemies (hitState r2)) <> Some i).
Proof.
  intros Hn Hh Hd Ht1 r1 Ht2 r2.
  assert (E1 : r1 = ([], mk (setNth i (wounded en 1 false) (g_enemies s))
                            (g_enemySpawnTimer s) (g_playerHealth s)
                            (g_score s), a)).
  { subst r1. rewrite (checkBulletHits_one_hit b1 s a Ht1 Hn).
    now rewrite damage_from_2. }
  assert (Hn1 : nth_error (g_enemies (hitState r1)) i
                = Some (wounded en 1 false)).
  { rewrite E1. cbn. eapply nth_error_setNth; eauto. }
  assert (E2 : r2 = ([], mk (setNth i (wounded en 0 true)
                                    (g_enemies (hitState r1)))
                            (g_enemySpawnTimer s) (g_playerHealth s)
                            (g_score s + 10)%Z,
                     Sound.playSound "enemy_die" a)).
  { subst r2. rewrite (checkBulletHits_one_hit b2 _ _ Ht2 Hn1).
    rewrite damage_from_1 by reflexivity. rewrite E1. reflexivity. }
  assert (Hn2 : nth_error (g_enemies (hitState r2)) i
                = Some (wounded en 0 true)).
  { rewrite E2. cbn [hitState fst snd g_enemies].
    eapply nth_error_setNth; eauto. }
  repeat split; try (rewrite E1; reflexivity); try (rewrite E2; reflexivity);
    try assumption.
  intros b Hb. apply firstTarget_Some in Hb as (en' & Hn' & Hd' & _).
  rewrite Hn2 in Hn'. injection Hn' as <-. discriminate.
Qed.

Lemma inRange_same_place (b : Bullet.t) (en : Enemy.t) :
  Bullet.x b = Enemy.x en -> Bullet.y b = Enemy.y en ->
  Bullet.z b = Enemy.z en -> -0.3 < Enemy.scale en ->
  inRange b en = true.
Proof.
  intros Hx Hy Hz Hs. unfold inRange. cbv zeta. rewrite Hx, Hy, Hz.
  apply JSFacts.lt_true.
  replace ((Enemy.x en - Enemy.x en) * (Enemy.x en - Enemy.x en) +
           (Enemy.y en - Enemy.y en) * (Enemy.y en - Enemy.y en) +
           (Enemy.z en - Enemy.z en) * (Enemy.z en - Enemy.z en))
    with 0 by ring.
  rewrite sqrt_0. lra.
Qed.

Lemma two_hits_kill_witness :
  let en := Enemy.mk 5 0.5 5 2 0.6 0 false in
  let b := Bullet.mk 5 0.5 5 0.5 0 0 80 in
  let s := mk [en] 0 100 0 in
  let a := Sound.initSounds (Sound.mk [] false []) in
  let r1 := checkBulletHits [b] s a in
  let r2 := checkBulletHits [b] (hitState r1) (hitAudio r1) in
  (hitSurvivors r1 = [] /\
   nth_error (g_enemies (hitState r1)) 0 = Some (wounded en 1 false) /\
   g_score (hitState r1) = g_score s) /\
  (hitSurvivors r2 = [] /\
   nth_error (g_enemies (hitState r2)) 0 = Some (wounded en 0 true) /\
   g_score (hitState r2) = (g_score s + 10)%Z) /\
  (forall b', firstTarget b' (g_enemies (hitState r2)) <> Some 0%nat).
Proof.
  intros en b s a.
  assert (Hr : inRange b en = true)
    by (apply inRange_same_place; cbn; try reflexivity; lra).
  assert (Hr1 : inRange b (wounded en 1 false) = true)
    by (apply inRange_same_place; cbn; try reflexivity; lra).
  assert (Ht : firstTarget b (g_enemies s) = Some 0%nat).
  { cbn [firstTarget g_enemies s]. rewrite Hr. reflexivity. }
  apply (@two_hits_kill s a b b 0%nat en eq_refl eq_refl eq_refl Ht).
  rewrite (@checkBulletHits_one_hit b s a 0%nat en Ht eq_refl).
  rewrite damage_from_2 by reflexivity.
  cbn [hitState fst snd g_enemies setNth s firstTarget].
  rewrite Hr1. reflexivity.
Defined.

(** *** Dead enemies are inert *)

Lemma advanceEnemy_dead (px pz : R) (e : Enemy.t) (hp : R) :
  Enemy.dead e = true -> advanceEnemy px pz e hp = (e, hp).
Proof. intros Hd. unfold advanceEnemy. now rewrite Hd. Qed.

Lemma advanceEnemy_flag (px pz : R) (e : Enemy.t) (hp : R) :
  Enemy.dead (fst (advanceEnemy px pz e hp)) = Enemy.dead e.
Proof.
  unfold advanceEnemy. destruct (Enemy.dead e) eqn:Hd; [exact Hd|].
  cbv zeta. destruct (JS.gt _ 0.01); destruct (JS.lt _ ENEMY_DAMAGE_DIST);
    reflexivity.
Qed.

Lemma advanceEnemies_keeps_dead (px pz : R) (es : list Enemy.t) (hp : R) :
  Forall2 (fun e e' => Enemy.dead e = true -> e' = e)
          es (fst (advanceEnemies px pz es hp)).
Proof.
  revert hp. induction es as [|e es IH]; intros hp; cbn [advanceEnemies].
  - constructor.
  - destruct (advanceEnemy px pz e hp) as [e' h] eqn:He.
    specialize (IH h). destruct (advanceEnemies px pz es h) as [rest' h'].
    cbn [fst] in *. constructor; [|exact IH].
    intros Hd. rewrite advanceEnemy_dead in He by exact Hd. congruence.
Qed.

Lemma lessDead_alive (es : list Enemy.t) : lessDead es (alive es).
Proof.
  induction es as [|e es IH]; cbn [alive filter].
  - constructor.
  - destruct (Enemy.dead e) eqn:Hd; cbn [negb].
    + now apply lessDead_drop.
    + now apply lessDead_keep.
Qed.

Lemma advanceEnemies_lessDead (px pz : R) (l1 l2 : list Enemy.t) (hp : R) :
  lessDead l1 l2 ->
  lessDead (fst (advanceEnemies px pz l1 hp))
           (fst (advanceEnemies px pz l2 hp)) /\
  snd (advanceEnemies px pz l1 hp) = snd (advanceEnemies px pz l2 hp).
Proof.
  intros H. revert hp.
  induction H as [|e l1 l2 H IH|e l1 l2 Hd H IH]; intros hp.
  - split; [constructor | reflexivity].
  - cbn [advanceEnemies]. destruct (advanceEnemy px pz e hp) as [e' h].
    destruct (IH h) as [IH1 IH2].
    destruct (advanceEnemies px pz l1 h) as [r1 h1].
    destruct (advanceEnemies px pz l2 h) as [r2 h2]. cbn [fst snd] in *.
    split; [now apply lessDead_keep | exact IH2].
  - cbn [advanceEnemies]. rewrite advanceEnemy_dead by exact Hd.
    destruct (IH hp) as [IH1 IH2].
    destruct (advanceEnemies px pz l1 hp) as [r1 h1]. cbn [fst snd] in *.
    split; [now apply lessDead_drop | exact IH2].
Qed.

Lemma drawEnemiesLoop_lessDead (l1 l2 : list Enemy.t) :
  lessDead l1 l2 -> drawEnemiesLoop l1 = drawEnemiesLoop l2.
Proof.
  induction 1 as [|e l1 l2 H IH|e l1 l2 Hd H IH]; cbn [drawEnemiesLoop].
  - reflexivity.
  - now rewrite IH.
  - now rewrite Hd.
Qed.

(** The four components of what the inner loop returns. *)
Lemma hitScan_lessDead (b : Bullet.t) (l1 l2 : list Enemy.t) (score : Z)
  (a : Sound.t) :
  lessDead l1 l2 ->
  exists l1' l2' score' a' hit,
    hitScan b l1 score a = (l1', score', a', hit) /\
    hitScan b l2 score a = (l2', score', a', hit) /\
    lessDead l1' l2'.
Proof.
  induction 1 as [|e l1 l2 H IH|e l1 l2 Hd H IH]; cbn [hitScan].
  - exists [], [], score, a, false. repeat split. constructor.
  - destruct IH as (l1' & l2' & sc' & a' & hit & E1 & E2 & HL).
    destruct (Enemy.dead e) eqn:Hd.
    + rewrite E1, E2. exists (e :: l1'), (e :: l2'), sc', a', hit.
      repeat split. now apply lessDead_keep.
    + destruct (inRange b e).
      * destruct (damage e score a) as [[en' sc''] a''].
        exists (en' :: l1), (en' :: l2), sc'', a'', true.
        repeat split. now apply lessDead_keep.
      * rewrite E1, E2. exists (e :: l1'), (e :: l2'), sc', a', hit.
        repeat split. now apply lessDead_keep.
  - destruct IH as (l1' & l2' & sc' & a' & hit & E1 & E2 & HL).
    rewrite Hd, E1. exists (e :: l1'), l2', sc', a', hit.
    repeat split; [exact E2 | now apply lessDead_drop].
Qed.

Lemma hitLoop_lessDead (bullets surviving : list Bullet.t) (s1 s2 : t)
  (a : Sound.t) :
  lessDead (g_enemies s1) (g_enemies s2) -> g_score s1 = g_score s2 ->
  let r1 := hitLoop bullets surviving s1 a in
  let r2 := hitLoop bullets surviving s2 a in
  hitSurvivors r1 = hitSurvivors r2 /\
  lessDead (g_enemies (hitState r1)) (g_enemies (hitState r2)) /\
  g_score (hitState r1) = g_score (hitState r2) /\
  hitAudio r1 = hitAudio r2.
Proof.
  revert surviving s1 s2 a.
  induction bullets as [|b bullets IH]; intros surviving s1 s2 a HL Hsc;
    cbn [hitLoop].
  - cbn. auto.
  - destruct (hitScan_lessDead b (g_score s1) a HL)
      as (l1' & l2' & sc' & a' & hit & E1 & E2 & HL').
    rewrite <- Hsc, E1, E2. apply IH; [exact HL' | reflexivity].
Qed.

Lemma hitScan_keeps_dead (b : Bullet.t) (es : list Enemy.t) (score : Z)
  (a : Sound.t) :
  Forall2 (fun e e' => Enemy.dead e = true -> e' = e)
          es (fst (fst (fst (hitScan b es score a)))).
Proof.
  induction es as [|e es IH]; cbn [hitScan].
  - constructor.
  - assert (Hsame : Forall2 (fun e e' => Enemy.dead e = true -> e' = e)
                            es es).
    { clear. induction es; constructor; auto. }
    destruct (Enemy.dead e) eqn:Hd.
    + destruct (hitScan b es score a) as [[[r sc] a'] h]. cbn [fst] in *.
      constructor; auto.
    + destruct (inRange b e).
      * destruct (damage e score a) as [[en' sc'] a']. cbn [fst].
        constructor; [congruence | exact Hsame].
      * destruct (hitScan b es score a) as [[[r sc] a'] h]. cbn [fst] in *.
        constructor; auto.
Qed.

Lemma keeps_dead_trans (l1 l2 l3 : list Enemy.t) :
  Forall2 (fun e e' => Enemy.dead e = true -> e' = e) l1 l2 ->
  Forall2 (fun e e' => Enemy.dead e = true -> e' = e) l2 l3 ->
  Forall2 (fun e e' => Enemy.dead e = true -> e' = e) l1 l3.
Proof.
  intros H. revert l3. induction H as [|e1 e2 l1 l2 H12 H IH]; intros l3 H3.
  - inversion H3. constructor.
  - inversion H3 as [|e2' e3 l2' l3' H23 H' E1 E2]; subst.
    constructor; [|now apply IH].
    intros Hd. specialize (H12 Hd). subst e2. now apply H23.
Qed.

Lemma hitLoop_keeps_dead (bullets surviving : list Bullet.t) (s : t)
  (a : Sound.t) :
  Forall2 (fun e e' => Enemy.dead e = true -> e' = e)
          (g_enemies s)
          (g_enemies (hitState (hitLoop bullets surviving s a))).
Proof.
  revert surviving s a.
  induction bullets as [|b bullets IH]; intros surviving s a; cbn [hitLoop].
  - cbn. induction (g_enemies s); constructor; auto.
  - pose proof (hitScan_keeps_dead b (g_enemies s) (g_score s) a) as H1.
    destruct (hitScan b (g_enemies s) (g_score s) a) as [[[es sc] a'] hit].
    cbn [fst] in H1. eapply keeps_dead_trans; [exact H1|].
    apply (IH _ (mk es (g_enemySpawnTimer s) (g_playerHealth s) sc) a').
Qed.

Lemma alive_advanceEnemies (px pz : R) (es : list Enemy.t) (hp : R) :
  alive (fst (advanceEnemies px pz es hp))
  = fst (advanceEnemies px pz (alive es) hp).
Proof.
  revert hp. induction es as [|e es IH]; intros hp;
    cbn [advanceEnemies alive filter]; [reflexivity|].
  destruct (Enemy.dead e) eqn:Hd; cbn [negb].
  - rewrite advanceEnemy_dead by exact Hd.
    specialize (IH hp). destruct (advanceEnemies px pz es hp) as [r h].
    cbn [fst alive filter] in *. rewrite Hd. cbn [negb]. exact IH.
  - cbn [advanceEnemies].
    pose proof (advanceEnemy_flag px pz e hp) as Hf.
    destruct (advanceEnemy px pz e hp) as [e' h]. cbn [fst] in Hf.
    specialize (IH h). fold (alive es).
    destruct (advanceEnemies px pz es h) as [r h1].
    destruct (advanceEnemies px pz (alive es) h) as [r2 h2].
    cbn [fst alive filter] in *. rewrite Hf, Hd. cbn [negb]. now rewrite <- IH.
Qed.

(** C10: nothing clears a dead flag, and a dead enemy still in the list is
    inert.  The advance loop of [updateEnemies] returns it as it was, and
    the player's health comes out as if the dead enemies were not in the
    list; [checkBulletHits] returns it as it was, and the surviving bullets
    and the score come out as if the dead enemies were not in the list;
    [drawEnemies] draws what it would draw without them. *)
Theorem dead_enemies_inert (px pz hp : R) (bullets : list Bullet.t) (s : t)
  (a : Sound.t) (g_sheepProgram : bool) :
  let es := g_enemies s in
  let r := checkBulletHits bullets s a in
  let r' := checkBulletHits bullets (withEnemies (alive es) s) a in
  Forall2 (fun e e' => Enemy.dead e = true -> e' = e)
          es (fst (advanceEnemies px pz es hp)) /\
  snd (advanceEnemies px pz es hp)
  = snd (advanceEnemies px pz (alive es) hp) /\
  alive (fst (advanceEnemies px pz es hp))
  = fst (advanceEnemies px pz (alive es) hp) /\
  Forall2 (fun e e' => Enemy.dead e = true -> e' = e)
          es (g_enemies (hitState r)) /\
  hitSurvivors r = hitSurvivors r' /\
  g_score (hitState r) = g_score (hitState r') /\
  drawEnemies g_sheepProgram s
  = drawEnemies g_sheepProgram (withEnemies (alive es) s).
Proof.
  intros es r r'.
  pose proof (lessDead_alive es) as HL.
  destruct (advanceEnemies_lessDead px pz hp HL) as [HA1 HA2].
  destruct (@hitLoop_lessDead bullets [] s (withEnemies (alive es) s) a HL
              eq_refl) as (HS & _ & HSc & _).
  repeat split.
  - apply advanceEnemies_keeps_dead.
  - exact HA2.
  - apply alive_advanceEnemies.
  - apply hitLoop_keeps_dead.
  - exact HS.
  - exact HSc.
  - unfold drawEnemies. destruct g_sheepProgram; cbn [negb]; [|reflexivity].
    apply drawEnemiesLoop_lessDead. exact HL.
Qed.

End EnemiesFacts.

Module CubeBatchFacts.

Import CubeBatch.

Lemma bakeCube_length (T : list R) (d : Desc) :
  List.length (bakeCube T d) = 180%nat.
Proof. reflexivity. Qed.

Lemma baked_length (T : list R) (cubeDescs : list Desc) :
  List.length (flat_map (bakeCube T) cubeDescs)
  = (List.length cubeDescs * 36 * 5)%nat.
Proof.
  induction cubeDescs as [|d ds IH]; cbn [flat_map List.length].
  - reflexivity.
  - rewrite length_app, bakeCube_length, IH. lia.
Qed.

Lemma calls_call (c : GL.Call) (gl : GL.t) :
  GL.calls (GL.call c gl) = GL.calls gl ++ [c].
Proof. reflexivity. Qed.

Lemma verticesDrawn_app (l1 l2 : list GL.Call) :
  GL.verticesDrawn (l1 ++ l2)
  = (GL.verticesDrawn l1 + GL.verticesDrawn l2)%Z.
Proof.
  induction l1 as [|c l1 IH]; cbn [app GL.verticesDrawn]; [reflexivity|].
  destruct c; rewrite ?IH; lia.
Qed.

(** The calls [draw] adds to the log for a batch that has something to
    draw. *)
Lemma draw_calls (id : nat) (n tex : Z) (gl : GL.t) :
  n <> 0%Z ->
  GL.calls (draw (mk (Some id) n tex) gl)
  = GL.calls gl ++
    [ GL.bindBuffer id;
      GL.vertexAttribPointer GL.a_Position 3 20 0;
      GL.enableVertexAttribArray GL.a_Position;
      GL.vertexAttribPointer GL.a_UV 2 20 12;
      GL.enableVertexAttribArray GL.a_UV;
      GL.uniformMatrix4fv GL.u_ModelMatrix _identityElements;
      GL.uniform4fv GL.u_baseColor _white4;
      GL.uniform1f GL.u_texColorWeight 1.0;
      GL.uniform1i GL.u_whichTexture tex;
      GL.drawArrays 0 n ].
Proof.
  intros Hn. unfold draw. cbn [vbo vertCount texNum].
  destruct (Z.eqb_spec n 0); [contradiction|].
  cbv zeta. rewrite !calls_call, <- !app_assoc. reflexivity.
Qed.

(** C9: after [build] on a list of descriptors the batch's vertex count is
    36 times the length of the list and the buffer uploaded holds 5 floats
    for each of those vertices; a following [draw] adds to the log calls
    that draw exactly that many vertices, in one [drawArrays] call when the
    list is not empty, and adds nothing at all when it is empty. *)
Theorem build_then_draw (cubeDescs : list Desc) (tex : Z) (b : t)
  (gl : GL.t) :
  let n := Z.of_nat (List.length cubeDescs) in
  let b' := fst (build cubeDescs tex b gl) in
  let gl' := snd (build cubeDescs tex b gl) in
  vertCount b' = (36 * n)%Z /\
  (exists buf, last (GL.calls gl') (GL.drawArrays 0 0) = GL.bufferData buf /\
               Z.of_nat (List.length buf) = (5 * vertCount b')%Z) /\
  (exists added, GL.calls (draw b' gl') = GL.calls gl' ++ added /\
     GL.verticesDrawn added = (36 * n)%Z /\
     GL.drawCallCount added = (if (n =? 0)%Z then 0 else 1)%nat /\
     (cubeDescs = [] -> added = [])).
Proof.
  intros n b' gl'.
  assert (Hb : b' = mk (Some (GL.buffers
                 match vbo b with
                 | Some old => GL.call (GL.deleteBuffer old) gl
                 | None => gl
                 end)) (n * 36) tex) by reflexivity.
  split; [rewrite Hb; cbn [vertCount]; lia|]. split.
  - exists (flat_map (bakeCube _cubeData) cubeDescs). split.
    + subst gl'. unfold build, GL.newBuffer. cbn [snd]. rewrite calls_call.
      apply last_last.
    + rewrite baked_length, Hb. cbn [vertCount]. subst n. lia.
  - rewrite Hb. destruct (Z.eqb_spec n 0) as [Hz|Hnz].
    + exists []. rewrite app_nil_r. unfold draw. cbn [vbo vertCount].
      rewrite Hz. cbn. repeat split; lia.
    + eexists. split; [apply draw_calls; lia|].
      split; [cbn [GL.verticesDrawn]; lia|]. split; [reflexivity|].
      intros ->. subst n. cbn in Hnz. contradiction.
Qed.

End CubeBatchFacts.

Module MainFacts.

Import Main Spec.

Section FrameDriverFacts.

Variable World : Type.
Variable addBlock : Z -> Z -> World -> bool * World.
Variable removeBlock : Z -> Z -> World -> bool * World.
Variable rebuildBatches : World -> World.

Local Abbreviation Game := (Game World).
Local Abbreviation _handleKeys := (_handleKeys addBlock removeBlock rebuildBatches).
Local Abbreviation tick := (tick addBlock removeBlock rebuildBatches).

(** *** What each phase leaves alone *)

Lemma applyGravity_x_z (c : Camera.t) :
  v0 (Camera.eye (Camera.applyGravity c)) = v0 (Camera.eye c) /\
  v2 (Camera.eye (Camera.applyGravity c)) = v2 (Camera.eye c).
Proof.
  unfold Camera.applyGravity. destruct (Camera.grounded c); cbn [negb].
  - auto.
  - cbv zeta. destruct (JS.le _ _); cbn; auto.
Qed.

(** [updateEnemies] reads the x and z of the camera's eye and nothing else
    of the camera. *)
Lemma updateEnemies_reads_x_z (c1 c2 : Camera.t) (rnd : Random)
  (s : Enemies.t) :
  v0 (Camera.eye c1) = v0 (Camera.eye c2) ->
  v2 (Camera.eye c1) = v2 (Camera.eye c2) ->
  Enemies.updateEnemies c1 rnd s = Enemies.updateEnemies c2 rnd s.
Proof. intros H0 H2. unfold Enemies.updateEnemies. now rewrite H0, H2. Qed.

Lemma editBlock_keeps (edit : Z -> Z -> World -> bool * World)
  (sound : string) (g : Game) :
  let g' := editBlock rebuildBatches edit sound g in
  camera g' = camera g /\ gun g' = gun g /\ enemies g' = enemies g /\
  random g' = random g.
Proof.
  unfold editBlock. cbv zeta.
  destruct (edit _ _ _) as [[|] w]; cbn; auto.
Qed.

(** A step of the frame that leaves the enemies and the random generator
    alone. *)
Definition keepsEnemies (f : Game -> Game) : Prop :=
  forall g, enemies (f g) = enemies g /\ random (f g) = random g.

Lemma onKey_keeps (k : string) (f : Game -> Game) :
  keepsEnemies f -> keepsEnemies (onKey k f).
Proof.
  intros Hf g. unfold onKey. destruct (g_keys g k); [apply Hf | auto].
Qed.

Lemma keeps_then (f : Game -> Game) (x g : Game) :
  keepsEnemies f ->
  enemies x = enemies g /\ random x = random g ->
  enemies (f x) = enemies g /\ random (f x) = random g.
Proof. intros Hf [He Hr]. destruct (Hf x) as [-> ->]. auto. Qed.

Lemma moves_keep :
  keepsEnemies (keyW (World:=World)) /\ keepsEnemies (keyS (World:=World)) /\
  keepsEnemies (keyA (World:=World)) /\ keepsEnemies (keyD (World:=World)) /\
  keepsEnemies (keyQ (World:=World)) /\ keepsEnemies (keyE (World:=World)) /\
  keepsEnemies (keySpace (World:=World)) /\ keepsEnemies (keyF (World:=World)).
Proof.
  repeat apply conj; apply onKey_keeps; intros g; cbv zeta; cbn; auto.
Qed.

Lemma edits_keep :
  keepsEnemies (keyT addBlock rebuildBatches) /\
  keepsEnemies (keyY removeBlock rebuildBatches).
Proof.
  split; apply onKey_keeps; intros g; cbv zeta;
    cbn [enemies random with_keys]; apply editBlock_keeps.
Qed.

(** The key handler leaves the enemies and the random generator alone. *)
Lemma handleKeys_keeps_enemies (g : Game) :
  enemies (_handleKeys g) = enemies g /\ random (_handleKeys g) = random g.
Proof.
  destruct moves_keep as (HW & HS & HA & HD & HQ & HE & HSp & HF).
  destruct edits_keep as (HT & HY).
  unfold Main._handleKeys. cbv zeta.
  apply keeps_then; [exact HY|]. apply keeps_then; [exact HT|].
  apply keeps_then; [exact HF|]. apply keeps_then; [exact HSp|].
  apply keeps_then; [exact HE|]. apply keeps_then; [exact HQ|].
  apply keeps_then; [exact HD|]. apply keeps_then; [exact HA|].
  apply keeps_then; [exact HS|]. apply HW.
Qed.

Lemma tick_afterKeys (g : Game) :
  tick g
  = afterKeys (v0 (Camera.eye (camera g)), v2 (Camera.eye (camera g)))
              (_handleKeys g).
Proof. reflexivity. Qed.

(** The frame after the key handler, from any state [g1]. *)
Lemma afterKeys_order (eb : R * R) (g1 : Game) :
  let a1 := audio (walkSoundPhase eb g1) in
  let moved := Gun.updateBullets (gun g1) in
  let advanced :=
    Enemies.updateEnemies (camera g1) (random g1) (enemies g1) in
  let r := Enemies.checkBulletHits (Gun.g_bullets moved) (snd advanced) a1 in
  camera (afterKeys eb g1)
  = Camera.updateView (Camera.applyGravity (camera g1)) /\
  gun (afterKeys eb g1) = Gun.setBullets (hitSurvivors r) moved /\
  enemies (afterKeys eb g1) = hitState r /\
  audio (afterKeys eb g1) = hitAudio r /\
  random (afterKeys eb g1) = fst advanced.
Proof.
  cbv zeta.
  destruct (applyGravity_x_z (camera g1)) as [Hx Hz].
  rewrite <- (@updateEnemies_reads_x_z _ _ (random g1) (enemies g1) Hx Hz).
  unfold afterKeys, renderScene, hitPhase, enemyPhase, bulletPhase,
    gravityPhase, walkSoundPhase, Gun.getBullets.
  cbn [camera gun enemies random audio with_camera with_gun with_enemies
       with_audio].
  destruct (Enemies.updateEnemies _ _ _) as [rnd es].
  cbn [camera gun enemies random audio with_camera with_gun with_enemies
       with_audio snd fst].
  destruct (Enemies.checkBulletHits _ _ _) as [[surv es'] a'].
  cbn [camera gun enemies random audio with_camera with_gun with_enemies
       with_audio hitSurvivors hitState hitAudio fst snd].
  repeat split; reflexivity.
Qed.

(** C2: in a tick, with [g1] the state the key handler leaves: gravity is
    applied to the camera of [g1]; the enemies advance towards the eye
    position of [g1] (gravity changes its height only); hit resolution gets
    the bullets as [updateBullets] has moved them and the enemies as
    [updateEnemies] has moved them, both in this same tick. *)
Theorem tick_order (g : Game) :
  let g1 := _handleKeys g in
  let a1 := audio (walkSoundPhase
                     (v0 (Camera.eye (camera g)), v2 (Camera.eye (camera g)))
                     g1) in
  let moved := Gun.updateBullets (gun g1) in
  let advanced := Enemies.updateEnemies (camera g1) (random g) (enemies g) in
  let r := Enemies.checkBulletHits (Gun.g_bullets moved) (snd advanced) a1 in
  camera (tick g) = Camera.updateView (Camera.applyGravity (camera g1)) /\
  v0 (Camera.eye (Camera.applyGravity (camera g1)))
  = v0 (Camera.eye (camera g1)) /\
  v2 (Camera.eye (Camera.applyGravity (camera g1)))
  = v2 (Camera.eye (camera g1)) /\
  gun (tick g) = Gun.setBullets (hitSurvivors r) moved /\
  enemies (tick g) = hitState r /\
  audio (tick g) = hitAudio r /\
  random (tick g) = fst advanced.
Proof.
  cbv zeta. rewrite tick_afterKeys.
  destruct (handleKeys_keeps_enemies g) as [He Hr]. revert He Hr.
  generalize (_handleKeys g) as g1. intros g1 He Hr.
  rewrite <- He, <- Hr.
  destruct (applyGravity_x_z (camera g1)) as [Hx Hz].
  destruct (afterKeys_order
              (v0 (Camera.eye (camera g)), v2 (Camera.eye (camera g))) g1)
    as (H1 & H2 & H3 & H4 & H5).
  repeat split; assumption.
Qed.

(** *** Kills and the enemy list *)

Lemma deadCount_cons (e : Enemy.t) (es : list Enemy.t) :
  deadCount (e :: es)
  = ((if Enemy.dead e then 1 else 0) + deadCount es)%Z.
Proof.
  unfold deadCount. cbn [filter]. destruct (Enemy.dead e); cbn [List.length];
    lia.
Qed.

Lemma deadCount_alive (es : list Enemy.t) : deadCount (alive es) = 0%Z.
Proof.
  induction es as [|e es IH]; cbn [alive filter]; [reflexivity|].
  destruct (Enemy.dead e) eqn:Hd; cbn [negb]; [exact IH|].
  rewrite deadCount_cons, Hd. fold (alive es). lia.
Qed.

Lemma filter_dead_alive (es : list Enemy.t) :
  filter Enemy.dead (alive es) = [].
Proof.
  induction es as [|e es IH]; cbn [alive filter]; [reflexivity|].
  destruct (Enemy.dead e) eqn:Hd; cbn [negb filter]; [exact IH|].
  rewrite Hd. exact IH.
Qed.

(** A hit that kills adds 10 to the score and one dead enemy to the
    list; nothing else changes either. *)
Lemma hitScan_score (b : Bullet.t) (es : list Enemy.t) (score : Z)
  (a : Sound.t) :
  let r := Enemies.hitScan b es score a in
  (snd (fst (fst r)) - 10 * deadCount (fst (fst (fst r))))%Z
  = (score - 10 * deadCount es)%Z.
Proof.
  cbv zeta. induction es as [|e es IH]; cbn [Enemies.hitScan].
  - reflexivity.
  - destruct (Enemy.dead e) eqn:Hd.
    + destruct (Enemies.hitScan b es score a) as [[[r sc] a'] h].
      cbn [fst snd] in *. rewrite !deadCount_cons, Hd. lia.
    + destruct (Enemies.inRange b e).
      * unfold Enemies.damage.
        destruct (Z.leb_spec (Enemy.health e - 1) 0); cbn [fst snd];
          rewrite !deadCount_cons; cbn [Enemy.dead]; rewrite ?Hd; lia.
      * destruct (Enemies.hitScan b es score a) as [[[r sc] a'] h].
        cbn [fst snd] in *. rewrite !deadCount_cons, Hd. lia.
Qed.

Lemma hitLoop_score (bullets surviving : list Bullet.t) (s : Enemies.t)
  (a : Sound.t) :
  let s' := hitState (Enemies.hitLoop bullets surviving s a) in
  (Enemies.g_score s' - 10 * deadCount (Enemies.g_enemies s'))%Z
  = (Enemies.g_score s - 10 * deadCount (Enemies.g_enemies s))%Z.
Proof.
  cbv zeta. revert surviving s a.
  induction bullets as [|b bullets IH]; intros surviving s a;
    cbn [Enemies.hitLoop].
  - reflexivity.
  - pose proof (hitScan_score b (Enemies.g_enemies s) (Enemies.g_score s) a)
      as H. cbv zeta in H.
    destruct (Enemies.hitScan b (Enemies.g_enemies s) (Enemies.g_score s) a)
      as [[[es sc] a'] hit]. cbn [fst snd] in H.
    rewrite IH. cbn [Enemies.g_score Enemies.g_enemies]. exact H.
Qed.

Lemma updateEnemies_result (c : Camera.t) (rnd : Random) (s : Enemies.t) :
  exists es,
    Enemies.g_enemies (snd (Enemies.updateEnemies c rnd s)) = alive es /\
    Enemies.g_score (snd (Enemies.updateEnemies c rnd s)) = Enemies.g_score s.
Proof.
  unfold Enemies.updateEnemies. cbv zeta.
  destruct (_ >=? _)%Z; [destruct (_ <? _)%nat;
    [destruct (Enemies.spawnEnemy _ _) as [rnd' es']|]|];
    match goal with
    | |- context [Enemies.advanceEnemies ?px ?pz ?l ?h] =>
        destruct (Enemies.advanceEnemies px pz l h) as [es1 h1]
    end; exists es1; split; reflexivity.
Qed.

(** C1, as the code has it: [updateEnemies] ends with no dead enemy in the
    list, so the enemies killed in the frame before are gone after it; hit
    resolution comes later in the tick, so at the end of a tick the list
    holds, flagged dead, the enemies killed in that tick, and the score has
    grown by 10 for each of them. *)
Theorem kills_leave_next_frame (g g' : Game) :
  deadInList (enemyPhase g') = [] /\
  Enemies.g_score (enemies (tick g))
  = (Enemies.g_score (enemies g)
     + 10 * deadCount (Enemies.g_enemies (enemies (tick g))))%Z.
Proof.
  split.
  - unfold deadInList, enemyPhase.
    destruct (updateEnemies_result (camera g') (random g') (enemies g'))
      as (es & He & _).
    destruct (Enemies.updateEnemies _ _ _) as [rnd s']. cbn [snd] in He.
    cbn [enemies with_enemies]. rewrite He. apply filter_dead_alive.
  - rewrite tick_afterKeys.
    destruct (handleKeys_keeps_enemies g) as [He Hr]. revert He Hr.
    generalize (_handleKeys g) as g1.
    generalize (v0 (Camera.eye (camera g)), v2 (Camera.eye (camera g)))
      as eb.
    intros eb g1 He Hr. rewrite <- He. clear He Hr g.
    destruct (afterKeys_order eb g1) as (_ & _ & -> & _).
    destruct (updateEnemies_result (camera g1) (random g1) (enemies g1))
      as (es & He & Hs).
    pose proof (hitLoop_score
      (Gun.g_bullets (Gun.updateBullets (gun g1))) []
      (snd (Enemies.updateEnemies (camera g1) (random g1) (enemies g1)))
      (audio (walkSoundPhase eb g1))) as H.
    cbv zeta in H. rewrite He, Hs, deadCount_alive in H.
    unfold Enemies.checkBulletHits. lia.
Qed.

End FrameDriverFacts.

(** *** A kill, frame by frame *)

Lemma enemy_walks_in :
  Enemies.advanceEnemy 16 16
    (Enemy.mk 18.02 0.5 16 1 0.6 (PI / 2 - 0.08) false) 100
  = (Enemy.mk 18 0.65 16 1 0.6 (PI / 2) false, 100).
Proof.
  unfold Enemies.advanceEnemy.
  cbn [Enemy.dead Enemy.x Enemy.y Enemy.z Enemy.health Enemy.scale
       Enemy.bobTime].
  assert (Hd : sqrt ((16 - 18.02) * (16 - 18.02) + (16 - 16) * (16 - 16))
               = 2.02).
  { replace ((16 - 18.02) * (16 - 18.02) + (16 - 16) * (16 - 16))
      with (2.02 * 2.02) by lra.
    apply sqrt_square. lra. }
  rewrite Hd.
  rewrite (proj2 (JSFacts.gt_true 2.02 0.01)) by lra.
  unfold Enemies.ENEMY_DAMAGE_DIST, Enemies.ENEMY_SPEED.
  rewrite (proj2 (JSFacts.lt_false 2.02 1.2)) by lra.
  replace (PI / 2 - 0.08 + 0.08) with (PI / 2) by lra.
  rewrite sin_PI2, Rabs_R1.
  f_equal. f_equal; lra.
Qed.

Lemma bullet_reaches_enemy :
  Enemies.inRange (Bullet.mk (17.5 + 0.5) (1.5 + 0) (16 + 0) 0.5 0 0 77)
                  (Enemy.mk 18 0.65 16 1 0.6 (PI / 2) false) = true.
Proof.
  unfold Enemies.inRange.
  cbn [Bullet.x Bullet.y Bullet.z Enemy.x Enemy.y Enemy.z Enemy.scale].
  apply JSFacts.lt_true.
  replace ((17.5 + 0.5 - 18) * (17.5 + 0.5 - 18)
           + (1.5 + 0 - 0.65) * (1.5 + 0 - 0.65)
           + (16 + 0 - 16) * (16 + 0 - 16))
    with (0.85 * 0.85) by lra.
  rewrite sqrt_square; lra.
Qed.

(** C1 as stated fails: the enemy killed by this tick's hit resolution is
    still in the enemy list when the tick ends, with its dead flag set and
    its 10 points on the score. *)
Lemma killed_enemy_outlives_tick :
  Enemies.g_enemies
    (enemies (tick noBlocks noBlocks (fun w => w) frameBeforeKill))
  = [Enemy.mk 18 0.65 16 0 0.6 (PI / 2) true] /\
  Enemies.g_score
    (enemies (tick noBlocks noBlocks (fun w => w) frameBeforeKill)) = 10%Z.
Proof.
  rewrite tick_afterKeys.
  change (_handleKeys noBlocks noBlocks (fun w => w) frameBeforeKill)
    with frameBeforeKill.
  destruct (afterKeys_order
              (v0 (Camera.eye (camera frameBeforeKill)),
               v2 (Camera.eye (camera frameBeforeKill))) frameBeforeKill)
    as (_ & _ & -> & _).
  assert (Hadv : snd (Enemies.updateEnemies (camera frameBeforeKill)
                        (random frameBeforeKill) (enemies frameBeforeKill))
                 = Enemies.mk [Enemy.mk 18 0.65 16 1 0.6 (PI / 2) false]
                              1 100 0).
  { unfold Enemies.updateEnemies, frameBeforeKill.
    cbn [camera random enemies Camera.eye Camera.new v0 v2
         Enemies.g_enemySpawnTimer Enemies.g_enemies Enemies.g_playerHealth
         Enemies.g_score Enemies.advanceEnemies].
    change ((0 + 1 >=? Enemies.ENEMY_SPAWN_RATE)%Z) with false.
    cbv iota. cbn [Enemies.advanceEnemies]. rewrite enemy_walks_in.
    reflexivity. }
  assert (Hmoved : Gun.g_bullets (Gun.updateBullets (gun frameBeforeKill))
                   = [Bullet.mk (17.5 + 0.5) (1.5 + 0) (16 + 0) 0.5 0 0 77])
    by reflexivity.
  rewrite Hadv, Hmoved.
  assert (Ht : firstTarget
                 (Bullet.mk (17.5 + 0.5) (1.5 + 0) (16 + 0) 0.5 0 0 77)
                 [Enemy.mk 18 0.65 16 1 0.6 (PI / 2) false] = Some O).
  { cbn [firstTarget Enemy.dead negb andb]. rewrite bullet_reaches_enemy.
    reflexivity. }
  rewrite (@EnemiesFacts.checkBulletHits_one_hit
             (Bullet.mk (17.5 + 0.5) (1.5 + 0) (16 + 0) 0.5 0 0 77)
             (Enemies.mk [Enemy.mk 18 0.65 16 1 0.6 (PI / 2) false] 1 100 0)
             _ O (Enemy.mk 18 0.65 16 1 0.6 (PI / 2) false) Ht eq_refl).
  rewrite EnemiesFacts.damage_from_1 by reflexivity.
  split; reflexivity.
Qed.

End MainFacts.

Module CameraExtra.

Import Camera CameraOps.


(** X2: A step forward or to the left moves the eye by exactly [speed] in the
    horizontal plane, leaves its height, and the two steps are at right
    angles. *)
Theorem steps_have_length_speed (c : t) :
  stepX c (moveForward c) * stepX c (moveForward c)
  + stepZ c (moveForward c) * stepZ c (moveForward c) = speed c * speed c /\
  stepX c (moveLeft c) * stepX c (moveLeft c)
  + stepZ c (moveLeft c) * stepZ c (moveLeft c) = speed c * speed c /\
  stepX c (moveForward c) * stepX c (moveLeft c)
  + stepZ c (moveForward c) * stepZ c (moveLeft c) = 0 /\
  v1 (eye (moveForward c)) = v1 (eye c) /\
  v1 (eye (moveLeft c)) = v1 (eye c).
Proof.
  unfold stepX, stepZ, moveForward, moveLeft, _fwd, _right, with_eye.
  cbn [eye v0 v1 v2 yaw speed].
  pose proof (sin2_cos2 (yaw c * PI / 180)) as H. unfold Rsqr in H.
  repeat apply conj; try reflexivity.
  - replace (speed c * speed c) with
      ((sin (yaw c * PI / 180) * sin (yaw c * PI / 180)
        + cos (yaw c * PI / 180) * cos (yaw c * PI / 180))
       * (speed c * speed c)) by (rewrite H; ring).
    ring.
  - replace (speed c * speed c) with
      ((sin (yaw c * PI / 180) * sin (yaw c * PI / 180)
        + cos (yaw c * PI / 180) * cos (yaw c * PI / 180))
       * (speed c * speed c)) by (rewrite H; ring).
    ring.
  - ring.
Qed.

(** X3: A mouse event with no movement changes nothing, as long as the pitch is
    within the clamp. *)
Theorem mouseRotate_zero (c : t) :
  -89 <= pitch c <= 89 -> mouseRotate 0 0 c = c.
Proof.
  intros Hp. unfold mouseRotate. cbv zeta.
  cbn [pitch with_yaw with_pitch].
  replace (pitch c - 0 * 0.05) with (pitch c) by ring.
  rewrite (proj2 (JSFacts.gt_false (pitch c) 89)) by lra.
  cbn [pitch with_pitch with_yaw].
  rewrite (proj2 (JSFacts.lt_false (pitch c) (-89))) by lra.
  destruct c as [f s p e y pi vm v gr gy J g]. unfold with_pitch, with_yaw.
  cbn [fov speed panAngle eye yaw pitch viewMatrix velY grounded groundY
       jumpForce gravity].
  f_equal. ring.
Qed.

Lemma mouseRotate_zero_witness :
  -89 <= pitch new <= 89 /\ mouseRotate 0 0 new = new.
Proof.
  assert (H : -89 <= pitch new <= 89) by (cbn; lra).
  split; [exact H | exact (mouseRotate_zero new H)].
Defined.

Lemma run_consistent (op : Op) (c : t) : consistent c -> consistent (run op c).
Proof.
  unfold consistent. intros (Hge & Hgr & Hp). destruct op; cbn [run].
  1-6: (unfold moveForward, moveBackwards, moveLeft, moveRight, panLeft,
          panRight, with_eye, with_yaw;
        cbn [eye v0 v1 v2 groundY grounded velY pitch]; auto).
  - unfold jump. destruct (grounded c) eqn:Hg.
    + unfold with_grounded, with_velY.
      cbn [eye v0 v1 v2 groundY grounded velY pitch].
      repeat split; try congruence; try lra; auto.
    + rewrite Hg. auto.
  - unfold applyGravity. destruct (grounded c) eqn:Hg; cbn [negb].
    + rewrite Hg. auto.
    + cbv zeta. destruct (JS.le _ _) eqn:Hle.
      * unfold with_grounded, with_velY, with_eye.
        cbn [eye v0 v1 v2 groundY grounded velY pitch].
        repeat split; try congruence; try lra; auto.
      * apply JSFacts.le_false in Hle. revert Hle.
        unfold with_grounded, with_velY, with_eye.
        cbn [eye v0 v1 v2 groundY grounded velY pitch]. intros Hle.
        repeat split; try congruence; try lra; auto.
  - split; [|split].
    + unfold mouseRotate. cbv zeta.
      destruct (JS.gt _ 89); destruct (JS.lt _ (-89)); exact Hge.
    + unfold mouseRotate. cbv zeta.
      destruct (JS.gt _ 89); destruct (JS.lt _ (-89)); exact Hgr.
    + apply CameraFacts.mouseRotate_clamps.
  - unfold updateView, with_viewMatrix.
    cbn [eye v0 v1 v2 groundY grounded velY pitch]. auto.
Qed.

(** X4: Whatever the camera is made to do, in whatever order, it stays
    consistent: the eye never goes below [groundY], a grounded camera is on
    the ground with no vertical velocity, and the pitch stays within
    [-89, 89]. *)
Theorem camera_stays_consistent (ops : list Op) (c : t) :
  consistent c -> consistent (runAll ops c).
Proof.
  unfold runAll. revert c.
  induction ops as [|op ops IH]; intros c Hc; cbn [fold_left].
  - exact Hc.
  - apply IH, run_consistent, Hc.
Qed.

Lemma camera_stays_consistent_witness :
  consistent new /\
  consistent (runAll [Jump; MoveForward; ApplyGravity; MouseRotate 3 9000;
                      Jump; ApplyGravity; PanLeft; UpdateView] new).
Proof.
  assert (H : consistent new).
  { unfold consistent. cbn. repeat split; try lra. }
  split; [exact H | exact (@camera_stays_consistent _ new H)].
Defined.

End CameraExtra.

Module GunExtra.

Import Gun GunInv.

(** *** Subsequences *)

Lemma subseq_refl (A : Type) (l : list A) : subseq l l.
Proof. induction l; [apply subseq_nil | now apply subseq_keep]. Qed.

Lemma subseq_nil_l (A : Type) (l : list A) : subseq [] l.
Proof. induction l; constructor; auto. Qed.

Lemma subseq_app (A : Type) (l1 l1' l2 l2' : list A) :
  subseq l1 l1' -> subseq l2 l2' -> subseq (l1 ++ l2) (l1' ++ l2').
Proof.
  induction 1; intros H2; cbn [app];
    [exact H2 | apply subseq_skip; auto | apply subseq_keep; auto].
Qed.

Lemma subseq_length (A : Type) (l1 l2 : list A) :
  subseq l1 l2 -> (List.length l1 <= List.length l2)%nat.
Proof. induction 1; cbn [List.length]; lia. Qed.

Lemma subseq_Forall (A : Type) (P : A -> Prop) (l1 l2 : list A) :
  subseq l1 l2 -> Forall P l2 -> Forall P l1.
Proof.
  induction 1; intros HF; auto.
  - inversion HF; auto.
  - inversion HF; subst. constructor; auto.
Qed.

Lemma subseq_StronglySorted (A : Type) (R : A -> A -> Prop) (l1 l2 : list A) :
  subseq l1 l2 -> Sorted.StronglySorted R l2 -> Sorted.StronglySorted R l1.
Proof.
  induction 1; intros HS; auto.
  - inversion HS; auto.
  - inversion HS; subst. constructor; auto.
    eapply subseq_Forall; eauto.
Qed.

(** *** Hit resolution keeps a subsequence of the bullets *)

Lemma hitLoop_survivors (bullets surviving : list Bullet.t) (s : Enemies.t)
  (a : Sound.t) :
  exists kept,
    fst (fst (Enemies.hitLoop bullets surviving s a)) = surviving ++ kept /\
    subseq kept bullets.
Proof.
  revert surviving s a.
  induction bullets as [|b bullets IH]; intros surviving s a;
    cbn [Enemies.hitLoop].
  - exists []. rewrite app_nil_r. split; [reflexivity | constructor].
  - destruct (Enemies.hitScan b (Enemies.g_enemies s) (Enemies.g_score s) a)
      as [[[es sc] a'] hit].
    destruct hit.
    + destruct (IH surviving (Enemies.mk es (Enemies.g_enemySpawnTimer s)
                                (Enemies.g_playerHealth s) sc) a')
        as (kept & -> & Hk).
      exists kept. split; [reflexivity | now apply subseq_skip].
    + destruct (IH (surviving ++ [b])
                   (Enemies.mk es (Enemies.g_enemySpawnTimer s)
                      (Enemies.g_playerHealth s) sc) a')
        as (kept & -> & Hk).
      exists (b :: kept). rewrite <- app_assoc. split; [reflexivity|].
      now apply subseq_keep.
Qed.

(** *** The invariant, step by step *)

Lemma StronglySorted_snoc (bs : list Bullet.t) (b : Bullet.t) :
  Sorted.StronglySorted firedLater bs ->
  Forall (fun b' => firedLater b' b) bs ->
  Sorted.StronglySorted firedLater (bs ++ [b]).
Proof.
  induction 1 as [|b0 bs HS IH HF]; intros Hall; cbn [app].
  - repeat constructor.
  - inversion Hall; subst. constructor; [auto|].
    apply Forall_app. split; [exact HF | repeat constructor; auto].
Qed.

Lemma StronglySorted_step (bs : list Bullet.t) :
  Sorted.StronglySorted firedLater bs ->
  Sorted.StronglySorted firedLater (Spec.stepBullets bs).
Proof.
  intros HS. unfold Spec.stepBullets.
  apply subseq_StronglySorted with (l2 := map advanceBullet bs).
  - clear HS. induction (map advanceBullet bs) as [|b l IH]; cbn [filter].
    + constructor.
    + destruct (Bullet.life b >? 0)%Z;
        [now apply subseq_keep | now apply subseq_skip].
  - induction HS as [|b bs HS IH HF]; cbn [map]; constructor; auto.
    apply Forall_map. revert HF. apply Forall_impl. intros b'.
    unfold firedLater, advanceBullet. cbn [Bullet.life]. lia.
Qed.

Lemma shoot_ok (camera : Camera.t) (g : t) : ok g -> ok (shoot camera g).
Proof.
  intros (Hcd & HS & HF). unfold shoot, SHOOT_COOLDOWN in *.
  destruct (Z.gtb_spec (g_shootCooldown g) 0) as [Hpos|Hzero].
  - unfold ok, SHOOT_COOLDOWN. split; [lia | split; assumption].
  - assert (g_shootCooldown g = 0%Z) as Hc0 by lia.
    unfold ok. cbn [g_bullets g_shootCooldown]. unfold SHOOT_COOLDOWN.
    split; [lia|]. split.
    + apply StronglySorted_snoc; [exact HS|].
      revert HF. apply Forall_impl. intros b.
      unfold firedLater, BULLET_LIFE. cbn [Bullet.life]. lia.
    + apply Forall_app. split.
      * revert HF. apply Forall_impl. intros b. lia.
      * repeat constructor; unfold BULLET_LIFE; cbn [Bullet.life]; lia.
Qed.

Lemma updateBullets_ok (g : t) : ok g -> ok (updateBullets g).
Proof.
  intros (Hcd & HS & HF). unfold ok, SHOOT_COOLDOWN in *.
  unfold updateBullets. cbn [g_bullets g_shootCooldown].
  change (filter (fun b => (Bullet.life b >? 0)%Z)
                 (map advanceBullet (g_bullets g)))
    with (Spec.stepBullets (g_bullets g)).
  split; [destruct (Z.gtb_spec (g_shootCooldown g) 0); cbv iota; lia|].
  split; [now apply StronglySorted_step|].
  unfold Spec.stepBullets. apply Forall_forall. intros b Hin.
  apply filter_In in Hin as [Hin Hpos]. apply Z.gtb_lt in Hpos.
  apply in_map_iff in Hin as (b0 & <- & Hin0).
  rewrite Forall_forall in HF. specialize (HF b0 Hin0).
  unfold advanceBullet in *. cbn [Bullet.life] in *.
  destruct (Z.gtb_spec (g_shootCooldown g) 0); cbv iota; lia.
Qed.

Lemma resolve_ok (s : Enemies.t) (a : Sound.t) (g : t) :
  ok g -> ok (step (Resolve s a) g).
Proof.
  intros (Hcd & HS & HF). unfold step, Enemies.checkBulletHits, getBullets.
  destruct (hitLoop_survivors (g_bullets g) [] s a) as (kept & -> & Hk).
  cbn [app]. unfold ok, setBullets. cbn [g_bullets g_shootCooldown].
  split; [exact Hcd|]. split.
  - eapply subseq_StronglySorted; eauto.
  - eapply subseq_Forall; eauto.
Qed.

Lemma steps_ok (es : list Event) (g : t) : ok g -> ok (steps es g).
Proof.
  unfold steps. revert g.
  induction es as [|e es IH]; intros g Hg; cbn [fold_left]; [exact Hg|].
  apply IH. destruct e; cbn [step].
  - now apply shoot_ok.
  - now apply updateBullets_ok.
  - now apply resolve_ok.
Qed.

(** Bullets spaced 12 frames apart with lives in 1..80 are at most 7. *)
Lemma spaced_rest (M : Z) (b : Bullet.t) (rest : list Bullet.t) :
  Sorted.StronglySorted firedLater (b :: rest) ->
  Forall (fun b' => (Bullet.life b' <= M)%Z) (b :: rest) ->
  (12 * Z.of_nat (List.length rest) <= M - Bullet.life b)%Z.
Proof.
  revert b. induction rest as [|b' rest IH]; intros b HS HF.
  - inversion HF; subst. cbn [List.length]. lia.
  - inversion HS as [|? ? HS' Hall]; subst. inversion HF; subst.
    specialize (IH b' HS' ltac:(assumption)).
    inversion Hall; subst. unfold firedLater in *.
    cbn [List.length]. lia.
Qed.

Lemma ok_at_most_7 (g : t) : ok g -> (List.length (g_bullets g) <= 7)%nat.
Proof.
  intros (Hcd & HS & HF). unfold SHOOT_COOLDOWN in *.
  destruct (g_bullets g) as [|b rest]; [cbn; lia|].
  assert (HM : Forall (fun b' => (Bullet.life b' <= 80)%Z) (b :: rest)).
  { revert HF. apply Forall_impl. intros b'. lia. }
  pose proof (spaced_rest HS HM) as Hlen.
  inversion HF; subst. cbn [List.length]. lia.
Qed.

(** X5: From a gun just initialised, through any sequence of shots, frame
    updates and hit resolutions: the cooldown counter stays within 0..12,
    every bullet in the list has between 1 and 80 frames left, and there are
    never more than 7 bullets in the list. *)
Theorem gun_bounds (es : list Event) :
  let g := steps es initGun in
  (0 <= g_shootCooldown g <= 12)%Z /\
  Forall (fun b => (0 < Bullet.life b <= 80)%Z) (g_bullets g) /\
  (List.length (g_bullets g) <= 7)%nat.
Proof.
  cbv zeta.
  assert (Hok : ok (steps es initGun)).
  { apply steps_ok. unfold ok, initGun, SHOOT_COOLDOWN. cbn.
    repeat split; try lia; constructor. }
  split; [apply Hok|]. split; [|now apply ok_at_most_7].
  destruct Hok as (Hcd & _ & HF). unfold SHOOT_COOLDOWN in Hcd.
  revert HF. apply Forall_impl. intros b. lia.
Qed.

(** *** Flight *)

Lemma advanceBulletN_position (n : nat) (b : Bullet.t) :
  advanceBulletN n b
  = Bullet.mk (Bullet.x b + INR n * Bullet.dx b)
              (Bullet.y b + INR n * Bullet.dy b)
              (Bullet.z b + INR n * Bullet.dz b)
              (Bullet.dx b) (Bullet.dy b) (Bullet.dz b)
              (Bullet.life b - Z.of_nat n).
Proof.
  induction n as [|n IH]; cbn [advanceBulletN].
  - destruct b. cbn [INR Z.of_nat Bullet.x Bullet.y Bullet.z Bullet.dx
                      Bullet.dy Bullet.dz Bullet.life].
    f_equal; try lia; ring.
  - rewrite IH. unfold advanceBullet.
    cbn [Bullet.x Bullet.y Bullet.z Bullet.dx Bullet.dy Bullet.dz Bullet.life].
    rewrite S_INR. f_equal; try lia; ring.
Qed.

(** X6: A bullet leaves the gun at speed [BULLET_SPEED] along the camera's look
    direction, half a unit in front of the eye, and after [n] frames it has
    flown [n] times its velocity in a straight line. *)
Theorem bullet_flies_straight (camera : Camera.t) (n : nat) :
  let b := Spec.firedBullet camera in
  Bullet.dx b * Bullet.dx b + Bullet.dy b * Bullet.dy b
  + Bullet.dz b * Bullet.dz b = BULLET_SPEED * BULLET_SPEED /\
  Bullet.x b = v0 (Camera.eye camera) + Bullet.dx b /\
  Bullet.y b = v1 (Camera.eye camera) + Bullet.dy b /\
  Bullet.z b = v2 (Camera.eye camera) + Bullet.dz b /\
  Bullet.x (advanceBulletN n b) = Bullet.x b + INR n * Bullet.dx b /\
  Bullet.y (advanceBulletN n b) = Bullet.y b + INR n * Bullet.dy b /\
  Bullet.z (advanceBulletN n b) = Bullet.z b + INR n * Bullet.dz b.
Proof.
  cbv zeta. rewrite advanceBulletN_position.
  unfold Spec.firedBullet.
  cbn [Bullet.x Bullet.y Bullet.z Bullet.dx Bullet.dy Bullet.dz].
  set (th := Camera.yaw camera * PI / 180).
  set (ph := Camera.pitch camera * PI / 180).
  pose proof (sin2_cos2 th) as Hth. pose proof (sin2_cos2 ph) as Hph.
  unfold Rsqr in *.
  split.
  - replace (cos th * cos ph * BULLET_SPEED * (cos th * cos ph * BULLET_SPEED)
             + sin ph * BULLET_SPEED * (sin ph * BULLET_SPEED)
             + sin th * cos ph * BULLET_SPEED
               * (sin th * cos ph * BULLET_SPEED))
      with (BULLET_SPEED * BULLET_SPEED
            * ((sin th * sin th + cos th * cos th) * (cos ph * cos ph)
               + sin ph * sin ph)) by ring.
    rewrite Hth. replace (1 * (cos ph * cos ph) + sin ph * sin ph)
      with (sin ph * sin ph + cos ph * cos ph) by ring.
    rewrite Hph. ring.
  - unfold BULLET_SPEED. repeat apply conj; reflexivity.
Qed.

End GunExtra.

Module EnemiesExtra.

Import Enemies EnemyMeasures.

(** *** Player health *)

Lemma advanceEnemy_health (px pz : R) (e : Enemy.t) (hp : R) :
  0 <= hp ->
  0 <= snd (advanceEnemy px pz e hp) <= hp.
Proof.
  intros Hhp. unfold advanceEnemy. destruct (Enemy.dead e); [cbn; lra|].
  cbv zeta. destruct (JS.gt _ 0.01); destruct (JS.lt _ ENEMY_DAMAGE_DIST);
    cbn [snd]; try lra;
    destruct (JS.lt (hp - 0.15) 0) eqn:Hneg; try lra;
    apply JSFacts.lt_false in Hneg; lra.
Qed.

Lemma advanceEnemies_health (px pz : R) (es : list Enemy.t) (hp : R) :
  0 <= hp ->
  0 <= snd (advanceEnemies px pz es hp) <= hp.
Proof.
  revert hp. induction es as [|e es IH]; intros hp Hhp; cbn [advanceEnemies].
  - cbn. lra.
  - pose proof (advanceEnemy_health px pz e Hhp) as H1.
    destruct (advanceEnemy px pz e hp) as [e' h]. cbn [snd] in H1.
    specialize (IH h ltac:(lra)).
    destruct (advanceEnemies px pz es h) as [rest' h']. cbn [snd] in *. lra.
Qed.

Lemma updateEnemies_health_eq (camera : Camera.t) (rnd : Random) (s : t) :
  exists es,
    g_playerHealth (snd (updateEnemies camera rnd s))
    = snd (advanceEnemies (v0 (Camera.eye camera)) (v2 (Camera.eye camera))
                          es (g_playerHealth s)).
Proof.
  unfold updateEnemies. cbv zeta.
  destruct (_ >=? _)%Z; [destruct (_ <? _)%nat;
    [destruct (spawnEnemy _ _) as [rnd' es']|]|];
    match goal with
    | |- context [advanceEnemies ?px ?pz ?l ?h] =>
        exists l; destruct (advanceEnemies px pz l h) as [es1 h1]
    end; reflexivity.
Qed.

Lemma updateEnemies_health_bounds (camera : Camera.t) (rnd : Random) (s : t) :
  0 <= g_playerHealth s ->
  0 <= g_playerHealth (snd (updateEnemies camera rnd s)) <= g_playerHealth s.
Proof.
  intros Hhp. destruct (updateEnemies_health_eq camera rnd s) as [es ->].
  now apply advanceEnemies_health.
Qed.

(** X7: The enemies only ever take health from the player, and never below
    zero: from a health that is not negative, [updateEnemies] leaves one
    between zero and what it was. *)
Theorem player_health_only_falls (camera : Camera.t) (rnd : Random) (s : t) :
  0 <= g_playerHealth s ->
  0 <= g_playerHealth (snd (updateEnemies camera rnd s)) <= g_playerHealth s.
Proof. apply updateEnemies_health_bounds. Qed.

Lemma player_health_only_falls_witness :
  let s := mk [Enemy.mk 16 0.5 16 2 0.6 0 false] 0 0.1 0 in
  0 <= g_playerHealth s /\
  0 <= g_playerHealth (snd (updateEnemies Camera.new (fun _ => 0) s))
    <= g_playerHealth s.
Proof.
  intros s. assert (H : 0 <= g_playerHealth s) by (cbn; lra).
  split; [exact H | exact (@player_health_only_falls Camera.new _ s H)].
Defined.

(** *** Population *)

Lemma advanceEnemies_alive_length (px pz : R) (es : list Enemy.t) (hp : R) :
  List.length (Spec.alive (fst (advanceEnemies px pz es hp)))
  = List.length (Spec.alive es).
Proof.
  rewrite EnemiesFacts.alive_advanceEnemies.
  generalize (Spec.alive es). clear es. intros es. revert hp.
  induction es as [|e es IH]; intros hp; cbn [advanceEnemies];
    [reflexivity|].
  destruct (advanceEnemy px pz e hp) as [e' h]. specialize (IH h).
  destruct (advanceEnemies px pz es h) as [rest' h']. cbn [fst] in *.
  cbn [List.length]. now rewrite IH.
Qed.

Lemma alive_length_le (es : list Enemy.t) :
  (List.length (Spec.alive es) <= List.length es)%nat.
Proof. apply filter_length_le. Qed.

Lemma spawnEnemy_appends (rnd : Random) (es : list Enemy.t) :
  exists e, snd (spawnEnemy rnd es) = es ++ [e] /\ Enemy.dead e = false.
Proof.
  unfold spawnEnemy, nextRandom. cbv zeta.
  destruct (_ =? 0)%Z; [|destruct (_ =? 1)%Z; [|destruct (_ =? 2)%Z]];
    eexists; split; reflexivity.
Qed.

Lemma updateEnemies_population (camera : Camera.t) (rnd : Random) (s : t) :
  let s' := snd (updateEnemies camera rnd s) in
  List.length (g_enemies s')
  = (List.length (Spec.alive (g_enemies s))
     + (if spawnsNow s then 1 else 0))%nat /\
  ((List.length (g_enemies s) <= ENEMY_MAX)%nat ->
   (List.length (g_enemies s') <= ENEMY_MAX)%nat) /\
  ((0 <= g_enemySpawnTimer s < ENEMY_SPAWN_RATE)%Z ->
   (0 <= g_enemySpawnTimer s' < ENEMY_SPAWN_RATE)%Z) /\
  g_score s' = g_score s.
Proof.
  cbv zeta.
  assert (Hlen : List.length (g_enemies (snd (updateEnemies camera rnd s)))
                 = (List.length (Spec.alive (g_enemies s))
                    + (if spawnsNow s then 1 else 0))%nat).
  { unfold updateEnemies, spawnsNow. cbv zeta.
    destruct (_ >=? _)%Z; cbn [andb].
    - destruct (_ <? _)%nat.
      + destruct (spawnEnemy_appends rnd (g_enemies s)) as (e & He & Hd).
        destruct (spawnEnemy rnd (g_enemies s)) as [rnd' es'].
        cbn [snd] in He. subst es'.
        pose proof (advanceEnemies_alive_length
                      (v0 (Camera.eye camera)) (v2 (Camera.eye camera))
                      (g_enemies s ++ [e]) (g_playerHealth s)) as H.
        destruct (advanceEnemies _ _ _ _) as [es1 h1].
        cbn [snd fst g_enemies] in *. unfold Spec.alive in *. rewrite H.
        rewrite filter_app, length_app. cbn [filter]. rewrite Hd.
        reflexivity.
      + pose proof (advanceEnemies_alive_length
                      (v0 (Camera.eye camera)) (v2 (Camera.eye camera))
                      (g_enemies s) (g_playerHealth s)) as H.
        destruct (advanceEnemies _ _ _ _) as [es1 h1].
        cbn [snd fst g_enemies] in *. unfold Spec.alive in *. lia.
    - pose proof (advanceEnemies_alive_length
                    (v0 (Camera.eye camera)) (v2 (Camera.eye camera))
                    (g_enemies s) (g_playerHealth s)) as H.
      destruct (advanceEnemies _ _ _ _) as [es1 h1].
      cbn [snd fst g_enemies] in *. unfold Spec.alive in *. lia. }
  split; [exact Hlen|]. split; [|split].
  - intros Hcap. rewrite Hlen. pose proof (alive_length_le (g_enemies s)).
    unfold spawnsNow, ENEMY_MAX in *.
    destruct (_ >=? _)%Z; cbn [andb]; [|lia].
    destruct (Nat.ltb_spec (List.length (g_enemies s)) 20); lia.
  - unfold updateEnemies, ENEMY_SPAWN_RATE. cbv zeta. intros Ht.
    destruct (Z.geb_spec (g_enemySpawnTimer s + 1) 180);
      [destruct (_ <? _)%nat; [destruct (spawnEnemy _ _)|]|];
      destruct (advanceEnemies _ _ _ _); cbn [snd g_enemySpawnTimer]; lia.
  - unfold updateEnemies. cbv zeta.
    destruct (_ >=? _)%Z;
      [destruct (_ <? _)%nat; [destruct (spawnEnemy _ _)|]|];
      destruct (advanceEnemies _ _ _ _); reflexivity.
Qed.

(** X8: [updateEnemies] leaves in the list the enemies that were alive, plus
    one when it spawns; it spawns when the timer reaches 180 and the list,
    dead enemies counted, is shorter than 20.  So a list of at most 20
    stays at most 20, and the timer stays within 0..179. *)
Theorem enemy_population (camera : Camera.t) (rnd : Random) (s : t) :
  let s' := snd (updateEnemies camera rnd s) in
  List.length (g_enemies s')
  = (List.length (Spec.alive (g_enemies s))
     + (if spawnsNow s then 1 else 0))%nat /\
  ((List.length (g_enemies s) <= ENEMY_MAX)%nat ->
   (List.length (g_enemies s') <= ENEMY_MAX)%nat) /\
  ((0 <= g_enemySpawnTimer s < ENEMY_SPAWN_RATE)%Z ->
   (0 <= g_enemySpawnTimer s' < ENEMY_SPAWN_RATE)%Z) /\
  g_score s' = g_score s.
Proof. apply updateEnemies_population. Qed.

(** *** Spawning *)

(** X9: A spawned enemy is appended to the list with health 2, alive, at
    height 0.5, on one of the lines x = 1, x = 30, z = 1, z = 30; three
    random numbers are used; and when the generator returns values in
    [0, 1) both coordinates are in [1, 31). *)
Theorem spawn_on_an_edge (rnd : Random) (es : list Enemy.t) :
  exists e,
    snd (spawnEnemy rnd es) = es ++ [e] /\
    Enemy.health e = 2%Z /\ Enemy.dead e = false /\ Enemy.y e = 0.5 /\
    Enemy.scale e = 0.6 /\
    (Enemy.x e = 1 \/ Enemy.x e = 30 \/ Enemy.z e = 1 \/ Enemy.z e = 30) /\
    (forall n, fst (spawnEnemy rnd es) n = rnd (3 + n)%nat) /\
    (0 <= rnd 1%nat < 1 ->
     1 <= Enemy.x e < 31 /\ 1 <= Enemy.z e < 31).
Proof.
  unfold spawnEnemy, nextRandom. cbv zeta.
  destruct (_ =? 0)%Z; [|destruct (_ =? 1)%Z; [|destruct (_ =? 2)%Z]];
    eexists; (split; [reflexivity|]);
    cbn [Enemy.health Enemy.dead Enemy.y Enemy.scale Enemy.x Enemy.z fst];
    repeat apply conj; try reflexivity; try tauto; intros; lra.
Qed.

(** *** Pursuit *)

Lemma distanceTo_sq (px pz : R) (e : Enemy.t) :
  distanceTo px pz e * distanceTo px pz e
  = (px - Enemy.x e) * (px - Enemy.x e) + (pz - Enemy.z e) * (pz - Enemy.z e).
Proof.
  unfold distanceTo. apply sqrt_sqrt.
  apply Rplus_le_le_0_compat; apply Rle_0_sqr.
Qed.

(** X10: A living enemy farther than 0.01 from the player takes a step of
    length [ENEMY_SPEED] straight towards the player: its distance to the
    player becomes the absolute value of the old distance minus
    [ENEMY_SPEED]. *)
Theorem enemy_steps_towards_player (px pz hp : R) (e : Enemy.t) :
  Enemy.dead e = false -> 0.01 < distanceTo px pz e ->
  let e' := fst (advanceEnemy px pz e hp) in
  distanceTo px pz e' = Rabs (distanceTo px pz e - ENEMY_SPEED) /\
  (Enemy.x e' - Enemy.x e) * (Enemy.x e' - Enemy.x e)
  + (Enemy.z e' - Enemy.z e) * (Enemy.z e' - Enemy.z e)
  = ENEMY_SPEED * ENEMY_SPEED /\
  0.5 <= Enemy.y e' <= 0.65.
Proof.
  intros Hd Hfar. cbv zeta.
  pose proof (distanceTo_sq px pz e) as Hsq.
  assert (He' : fst (advanceEnemy px pz e hp)
    = Enemy.mk (Enemy.x e + (px - Enemy.x e) / distanceTo px pz e * ENEMY_SPEED)
               (0.5 + Rabs (sin (Enemy.bobTime e + 0.08)) * 0.15)
               (Enemy.z e + (pz - Enemy.z e) / distanceTo px pz e * ENEMY_SPEED)
               (Enemy.health e) (Enemy.scale e) (Enemy.bobTime e + 0.08)
               (Enemy.dead e)).
  { unfold advanceEnemy. rewrite Hd. cbv zeta.
    fold (distanceTo px pz e).
    rewrite (proj2 (JSFacts.gt_true (distanceTo px pz e) 0.01)) by lra.
    destruct (JS.lt _ ENEMY_DAMAGE_DIST); reflexivity. }
  rewrite He'. clear He'. set (d := distanceTo px pz e) in *.
  assert (Hd0 : d <> 0) by lra.
  split; [|split].
  - unfold distanceTo at 1. cbn [Enemy.x Enemy.z].
    replace ((px - (Enemy.x e + (px - Enemy.x e) / d * ENEMY_SPEED))
             * (px - (Enemy.x e + (px - Enemy.x e) / d * ENEMY_SPEED))
             + (pz - (Enemy.z e + (pz - Enemy.z e) / d * ENEMY_SPEED))
               * (pz - (Enemy.z e + (pz - Enemy.z e) / d * ENEMY_SPEED)))
      with (Rsqr (d - ENEMY_SPEED)).
    + apply sqrt_Rsqr_abs.
    + unfold Rsqr.
      replace ((px - (Enemy.x e + (px - Enemy.x e) / d * ENEMY_SPEED))
               * (px - (Enemy.x e + (px - Enemy.x e) / d * ENEMY_SPEED))
               + (pz - (Enemy.z e + (pz - Enemy.z e) / d * ENEMY_SPEED))
                 * (pz - (Enemy.z e + (pz - Enemy.z e) / d * ENEMY_SPEED)))
        with (((px - Enemy.x e) * (px - Enemy.x e)
               + (pz - Enemy.z e) * (pz - Enemy.z e))
              * ((1 - ENEMY_SPEED / d) * (1 - ENEMY_SPEED / d)))
        by (field; exact Hd0).
      rewrite <- Hsq. field. exact Hd0.
  - cbn [Enemy.x Enemy.z].
    replace ((Enemy.x e + (px - Enemy.x e) / d * ENEMY_SPEED - Enemy.x e)
             * (Enemy.x e + (px - Enemy.x e) / d * ENEMY_SPEED - Enemy.x e)
             + (Enemy.z e + (pz - Enemy.z e) / d * ENEMY_SPEED - Enemy.z e)
               * (Enemy.z e + (pz - Enemy.z e) / d * ENEMY_SPEED - Enemy.z e))
      with (((px - Enemy.x e) * (px - Enemy.x e)
             + (pz - Enemy.z e) * (pz - Enemy.z e))
            * (ENEMY_SPEED * ENEMY_SPEED) / (d * d))
      by (field; exact Hd0).
    rewrite <- Hsq. field. exact Hd0.
  - cbn [Enemy.y].
    pose proof (Rabs_pos (sin (Enemy.bobTime e + 0.08))) as H0.
    pose proof (SIN_bound (Enemy.bobTime e + 0.08)) as Hb.
    assert (Rabs (sin (Enemy.bobTime e + 0.08)) <= 1)
      by (apply Rabs_le; lra).
    lra.
Qed.

Lemma enemy_steps_towards_player_witness :
  let e := Enemy.mk 19 0.5 20 2 0.6 0 false in
  Enemy.dead e = false /\ 0.01 < distanceTo 16 16 e /\
  let e' := fst (advanceEnemy 16 16 e 100) in
  distanceTo 16 16 e' = Rabs (distanceTo 16 16 e - ENEMY_SPEED) /\
  (Enemy.x e' - Enemy.x e) * (Enemy.x e' - Enemy.x e)
  + (Enemy.z e' - Enemy.z e) * (Enemy.z e' - Enemy.z e)
  = ENEMY_SPEED * ENEMY_SPEED /\
  0.5 <= Enemy.y e' <= 0.65.
Proof.
  intros e.
  assert (Hfar : 0.01 < distanceTo 16 16 e).
  { unfold distanceTo, e. cbn [Enemy.x Enemy.z].
    replace ((16 - 19) * (16 - 19) + (16 - 20) * (16 - 20)) with (5 * 5)
      by lra.
    rewrite sqrt_square; lra. }
  split; [reflexivity|]. split; [exact Hfar|].
  exact (@enemy_steps_towards_player 16 16 100 e eq_refl Hfar).
Defined.

(** *** Hit resolution conserves bullets and health *)

Lemma samePlace_refl (es : list Enemy.t) : Forall2 samePlace es es.
Proof. induction es; constructor; auto. unfold samePlace. auto. Qed.

Lemma samePlace_trans (l1 l2 l3 : list Enemy.t) :
  Forall2 samePlace l1 l2 -> Forall2 samePlace l2 l3 ->
  Forall2 samePlace l1 l3.
Proof.
  intros H. revert l3. induction H as [|e1 e2 l1 l2 H12 H IH]; intros l3 H3.
  - inversion H3. constructor.
  - inversion H3 as [|e2' e3 l2' l3' H23 H']; subst.
    constructor; [|now apply IH].
    unfold samePlace in *. intuition congruence.
Qed.

Lemma damage_effect (en : Enemy.t) (score : Z) (a : Sound.t) :
  let r := damage en score a in
  samePlace en (fst (fst r)) /\
  Enemy.health (fst (fst r)) = (Enemy.health en - 1)%Z /\
  (score <= snd (fst r))%Z.
Proof.
  cbv zeta. unfold damage, samePlace.
  destruct (_ <=? 0)%Z; cbn; repeat split; lia.
Qed.

Lemma hitScan_conserves (b : Bullet.t) (es : list Enemy.t) (score : Z)
  (a : Sound.t) :
  let r := hitScan b es score a in
  Forall2 samePlace es (fst (fst (fst r))) /\
  totalHealth (fst (fst (fst r)))
  = (totalHealth es - (if snd r then 1 else 0))%Z /\
  (score <= snd (fst (fst r)))%Z.
Proof.
  cbv zeta. induction es as [|e es IH]; cbn [hitScan].
  - cbn. repeat split; [constructor | lia].
  - destruct IH as (IH1 & IH2 & IH3).
    assert (Hrefl : samePlace e e) by (unfold samePlace; auto).
    destruct (Enemy.dead e).
    + destruct (hitScan b es score a) as [[[r sc] a'] h].
      cbn [fst snd totalHealth] in *. repeat split; auto. lia.
    + destruct (inRange b e).
      * destruct (damage_effect e score a) as (D1 & D2 & D3).
        cbv zeta in *. destruct (damage e score a) as [[en' sc'] a'].
        cbn [fst snd totalHealth] in *.
        repeat split; [constructor; [exact D1 | apply samePlace_refl]
                      | lia | exact D3].
      * destruct (hitScan b es score a) as [[[r sc] a'] h].
        cbn [fst snd totalHealth] in *. repeat split; auto. lia.
Qed.

Lemma hitLoop_conserves (bullets surviving : list Bullet.t) (s : t)
  (a : Sound.t) :
  let r := hitLoop bullets surviving s a in
  Forall2 samePlace (g_enemies s) (g_enemies (Spec.hitState r)) /\
  (totalHealth (g_enemies (Spec.hitState r))
   + Z.of_nat (List.length bullets) + Z.of_nat (List.length surviving)
   = totalHealth (g_enemies s)
     + Z.of_nat (List.length (Spec.hitSurvivors r)))%Z /\
  (g_score s <= g_score (Spec.hitState r))%Z /\
  g_enemySpawnTimer (Spec.hitState r) = g_enemySpawnTimer s /\
  g_playerHealth (Spec.hitState r) = g_playerHealth s.
Proof.
  cbv zeta. revert surviving s a.
  induction bullets as [|b bullets IH]; intros surviving s a; cbn [hitLoop].
  - cbn. repeat split; try lia. apply samePlace_refl.
  - destruct (hitScan_conserves b (g_enemies s) (g_score s) a)
      as (H1 & H2 & H3). cbv zeta in *.
    destruct (hitScan b (g_enemies s) (g_score s) a) as [[[es sc] a'] hit].
    cbn [fst snd] in *.
    destruct (IH (if hit then surviving else surviving ++ [b])
                 (mk es (g_enemySpawnTimer s) (g_playerHealth s) sc) a')
      as (I1 & I2 & I3 & I4 & I5).
    cbn [g_enemies g_score g_enemySpawnTimer g_playerHealth] in *.
    repeat split; try congruence.
    + eapply samePlace_trans; eauto.
    + destruct hit; [|rewrite length_app in I2]; cbn [List.length] in *; lia.
    + lia.
Qed.

Lemma firstTarget_no_living (b : Bullet.t) (es : list Enemy.t) :
  Spec.alive es = [] -> Spec.firstTarget b es = None.
Proof.
  induction es as [|e es IH]; cbn [Spec.alive filter Spec.firstTarget];
    [reflexivity|].
  destruct (Enemy.dead e); cbn [negb andb]; [|discriminate].
  intros H. now rewrite (IH H).
Qed.

Lemma hitLoop_no_living (bullets surviving : list Bullet.t) (s : t)
  (a : Sound.t) :
  Spec.alive (g_enemies s) = [] ->
  hitLoop bullets surviving s a = (surviving ++ bullets, s, a).
Proof.
  intros Hnone. revert surviving.
  induction bullets as [|b bullets IH]; intros surviving; cbn [hitLoop].
  - now rewrite app_nil_r.
  - rewrite EnemiesFacts.hitScan_miss by now apply firstTarget_no_living.
    replace (mk (g_enemies s) (g_enemySpawnTimer s) (g_playerHealth s)
                (g_score s)) with s by (now destruct s).
    rewrite IH, <- app_assoc. reflexivity.
Qed.

(** X11: Hit resolution neither makes nor moves anything: the bullets it
    returns are a subsequence of the ones it got; the enemies stay in the
    list, each where it was; every bullet used up takes exactly one health
    point off the enemies; the score does not fall; the spawn timer and the
    player's health are untouched.  With no living enemy every bullet comes
    back and nothing changes. *)
Theorem hits_conserve (bullets : list Bullet.t) (s : t) (a : Sound.t) :
  let r := checkBulletHits bullets s a in
  GunInv.subseq (Spec.hitSurvivors r) bullets /\
  Forall2 samePlace (g_enemies s) (g_enemies (Spec.hitState r)) /\
  (totalHealth (g_enemies (Spec.hitState r))
   = totalHealth (g_enemies s)
     - (Z.of_nat (List.length bullets)
        - Z.of_nat (List.length (Spec.hitSurvivors r))))%Z /\
  (g_score s <= g_score (Spec.hitState r))%Z /\
  g_enemySpawnTimer (Spec.hitState r) = g_enemySpawnTimer s /\
  g_playerHealth (Spec.hitState r) = g_playerHealth s /\
  (Spec.alive (g_enemies s) = [] -> r = (bullets, s, a)).
Proof.
  cbv zeta. unfold checkBulletHits.
  destruct (hitLoop_conserves bullets [] s a) as (H1 & H2 & H3 & H4 & H5).
  cbv zeta in *. cbn [List.length] in H2.
  destruct (GunExtra.hitLoop_survivors bullets [] s a) as (kept & Hk & Hsub).
  repeat apply conj; auto.
  - unfold Spec.hitSurvivors. rewrite Hk. exact Hsub.
  - lia.
  - intros Hnone. now rewrite hitLoop_no_living.
Qed.

(** *** Drawing *)

Lemma drawEnemiesLoop_length (es : list Enemy.t) :
  List.length (drawEnemiesLoop es)
  = (7 * List.length (Spec.alive es))%nat.
Proof.
  induction es as [|e es IH]; cbn [drawEnemiesLoop Spec.alive filter];
    [reflexivity|].
  destruct (Enemy.dead e); cbn [negb]; [exact IH|].
  rewrite length_app. fold (Spec.alive es). rewrite IH.
  cbn [drawEnemy List.length]. lia.
Qed.

(** X12: [drawEnemies] makes seven draw calls for each living enemy in the list
    and none when the shader program is missing; the first of an enemy's
    seven is its body, red with more than one health point left and orange
    otherwise. *)
Theorem seven_calls_per_enemy (g_sheepProgram : bool) (s : t) :
  List.length (drawEnemies g_sheepProgram s)
  = (if g_sheepProgram then 7 * List.length (Spec.alive (g_enemies s))
     else 0)%nat /\
  (forall e, List.length (drawEnemy e) = 7%nat /\
     drawColor (hd (mkDraw [] _eWhite) (drawEnemy e))
     = (if (Enemy.health e >? 1)%Z then _eRed else _eOrange)).
Proof.
  split.
  - unfold drawEnemies. destruct g_sheepProgram; cbn [negb];
      [apply drawEnemiesLoop_length | reflexivity].
  - intros e. split; reflexivity.
Qed.

End EnemiesExtra.

Module SoundExtra.

Import Sound Logs.

Lemma walkBalance_app (l1 l2 : list Cmd) :
  walkBalance (l1 ++ l2) = (walkBalance l1 + walkBalance l2)%Z.
Proof.
  induction l1 as [|c l1 IH]; cbn [app walkBalance]; [reflexivity|].
  destruct c; rewrite IH; lia.
Qed.

Lemma tickWalkSound_balance (m : bool) (a : t) :
  walkBalance (sent a) = (if _walkActive a then 1 else 0)%Z ->
  walkBalance (sent (tickWalkSound m a))
  = (if _walkActive (tickWalkSound m a) then 1 else 0)%Z.
Proof.
  intros H. unfold tickWalkSound.
  destruct (loaded "walk" a); cbn [negb]; [|exact H].
  destruct m, (_walkActive a) eqn:Hw; cbn [negb andb sent _walkActive];
    rewrite ?Hw; try exact H; rewrite walkBalance_app, H; reflexivity.
Qed.

(** X13: The walk loop follows the player: with the walk sound loaded, after
    [tickWalkSound moving] the loop flag equals [moving]; a second call
    with the same flag sends nothing; without the sound the call does
    nothing at all. *)
Theorem walk_loop_is_level_triggered (moving : bool) (a : t) :
  (loaded "walk" a = true -> _walkActive (tickWalkSound moving a) = moving) /\
  tickWalkSound moving (tickWalkSound moving a) = tickWalkSound moving a /\
  (loaded "walk" a = false -> tickWalkSound moving a = a) /\
  (_walkActive a = moving -> tickWalkSound moving a = a).
Proof.
  unfold tickWalkSound.
  destruct (loaded "walk" a) eqn:Hl; cbn [negb].
  - destruct moving, (_walkActive a) eqn:Hw; cbn [negb andb];
      unfold loaded in *; cbn [_sfx _walkActive negb andb]; rewrite ?Hl, ?Hw;
      cbn [negb andb]; repeat split; try reflexivity; try discriminate; auto.
  - rewrite Hl. cbn [negb]. repeat split; auto; discriminate.
Qed.

(** X14: Over any run of frames the loop is started and stopped in turn: if the
    starts minus the stops sent so far are 1 when the loop flag is set and 0
    when it is not, this is still so after the run. *)
Theorem walk_loop_never_doubled (ms : list bool) (a : t) :
  walkBalance (sent a) = (if _walkActive a then 1 else 0)%Z ->
  walkBalance (sent (walkFrames ms a))
  = (if _walkActive (walkFrames ms a) then 1 else 0)%Z.
Proof.
  unfold walkFrames. revert a.
  induction ms as [|m ms IH]; intros a H; cbn [fold_left]; [exact H|].
  apply IH, tickWalkSound_balance, H.
Qed.

Lemma walk_loop_never_doubled_witness :
  let a := initSounds (mk [] false []) in
  let ms := [true; true; false; true; false; false] in
  walkBalance (sent a) = (if _walkActive a then 1 else 0)%Z /\
  walkBalance (sent (walkFrames ms a))
  = (if _walkActive (walkFrames ms a) then 1 else 0)%Z.
Proof.
  intros a ms.
  assert (H : walkBalance (sent a) = (if _walkActive a then 1 else 0)%Z)
    by reflexivity.
  split; [exact H | exact (@walk_loop_never_doubled ms a H)].
Defined.

End SoundExtra.

Module CubeBatchExtra.

Import CubeBatch Logs.

Lemma liveBuffers_app (l1 l2 : list GL.Call) :
  liveBuffers (l1 ++ l2) = (liveBuffers l1 + liveBuffers l2)%Z.
Proof.
  induction l1 as [|c l1 IH]; cbn [app liveBuffers]; [reflexivity|].
  destruct c; rewrite ?IH; lia.
Qed.

Lemma build_live (cubeDescs : list Desc) (tex : Z) (b : t) (gl : GL.t) :
  let r := build cubeDescs tex b gl in
  (liveBuffers (GL.calls (snd r)) - holds (fst r)
   = liveBuffers (GL.calls gl) - holds b)%Z /\
  holds (fst r) = 1%Z /\
  vertCount (fst r) = (Z.of_nat (List.length cubeDescs) * 36)%Z /\
  texNum (fst r) = tex.
Proof.
  cbv zeta. unfold build, holds, GL.newBuffer, GL.call.
  destruct (vbo b) as [old|]; cbn [fst snd vbo vertCount texNum GL.calls];
    rewrite ?liveBuffers_app; cbn [liveBuffers]; repeat split; lia.
Qed.

(** X15: A batch never holds more than its one buffer: however often it is
    rebuilt, every buffer it created has been deleted again except the one
    it holds, and after the last build it has the vertex count and the
    texture of that build. *)
Theorem rebuild_releases_old_buffer (jobs : list (list Desc * Z)) (b : t)
  (gl : GL.t) :
  let r := rebuilds jobs (b, gl) in
  (liveBuffers (GL.calls (snd r)) - holds (fst r)
   = liveBuffers (GL.calls gl) - holds b)%Z /\
  (jobs <> [] ->
   holds (fst r) = 1%Z /\
   vertCount (fst r)
   = (Z.of_nat (List.length (fst (last jobs ([], 0%Z)))) * 36)%Z /\
   texNum (fst r) = snd (last jobs ([], 0%Z))).
Proof.
  cbv zeta. unfold rebuilds. revert b gl.
  induction jobs as [|[ds tex] jobs IH]; intros b gl; cbn [fold_left].
  - split; [reflexivity | congruence].
  - destruct (build_live ds tex b gl) as (B1 & B2 & B3 & B4). cbv zeta in *.
    cbn [fst snd].
    destruct (build ds tex b gl) as [b1 gl1]. cbn [fst snd] in *.
    destruct (IH b1 gl1) as [I1 I2]. split; [lia|]. intros _.
    destruct jobs as [|j jobs].
    + cbn [fold_left last fst snd]. auto.
    + change (last ((ds, tex) :: j :: jobs) ([], 0%Z))
        with (last (j :: jobs) ([] : list Desc, 0%Z)).
      apply I2. discriminate.
Qed.

(** X16: Every vertex [build] bakes for a cuboid is one of its corners: each
    coordinate is the centre plus or minus half the size along that axis;
    and its texture coordinates are 0 or 1. *)
Theorem baked_vertices_are_corners (d : Desc) (v : nat) :
  (v < 36)%nat ->
  exists x y z u w,
    bakeVertex _cubeData d v = [x; y; z; u; w] /\
    atEnd (tx d) (sx d) x /\ atEnd (ty d) (sy d) y /\
    atEnd (tz d) (sz d) z /\
    (u = 0 \/ u = 1) /\ (w = 0 \/ w = 1).
Proof.
  intros Hv. unfold bakeVertex. cbv zeta.
  do 5 eexists. split; [reflexivity|]. unfold atEnd.
  do 36 (destruct v as [|v];
         [cbn [Nat.mul Nat.add nth _cubeData _buildCubeVerts];
          repeat split; (left; lra) || (right; lra)|]).
  lia.
Qed.

Lemma baked_vertices_are_corners_witness :
  exists x y z u w,
    bakeVertex _cubeData (mkDesc 3 0.5 7 1 2 1) 17 = [x; y; z; u; w] /\
    atEnd 3 1 x /\ atEnd 0.5 2 y /\ atEnd 7 1 z /\
    (u = 0 \/ u = 1) /\ (w = 0 \/ w = 1).
Proof.
  apply (baked_vertices_are_corners (mkDesc 3 0.5 7 1 2 1) (v:=17)). lia.
Defined.

End CubeBatchExtra.

Module SessionFacts.

Import Main Session.

Section SessionFacts.

Variable World : Type.
Variable addBlock : Z -> Z -> World -> bool * World.
Variable removeBlock : Z -> Z -> World -> bool * World.
Variable rebuildBatches : World -> World.

Local Abbreviation Game := (Game World).
Local Abbreviation _handleKeys := (_handleKeys addBlock removeBlock rebuildBatches).
Local Abbreviation tick := (tick addBlock removeBlock rebuildBatches).
Local Abbreviation handle := (handle addBlock removeBlock rebuildBatches).
Local Abbreviation play := (play addBlock removeBlock rebuildBatches).

(** *** The key handler and the held keys *)

Lemma held_key (k0 : string) (f : Game -> Game) :
  (forall g, g_keys (f g) = g_keys g) ->
  keysAfter (onKey k0 f) (fun _ => false).
Proof.
  intros Hf g k. unfold onKey. destruct (g_keys g k0); [now rewrite Hf | auto].
Qed.

Lemma used_key (k0 : string) (f : Game -> Game) :
  (forall g, g_keys (f g) = setKey k0 false (g_keys g)) ->
  keysAfter (onKey k0 f) (fun k => String.eqb k k0).
Proof.
  intros Hf g k. unfold onKey. destruct (g_keys g k0) eqn:Hk.
  - rewrite Hf. unfold setKey. reflexivity.
  - destruct (String.eqb_spec k k0) as [->|]; [exact Hk | reflexivity].
Qed.

Lemma keysAfter_then (f1 f2 : Game -> Game) (u1 u2 : string -> bool)
  (g : Game) (k : string) :
  keysAfter f1 u1 -> keysAfter f2 u2 ->
  g_keys (f2 (f1 g)) k = if u1 k || u2 k then false else g_keys g k.
Proof.
  intros H1 H2. rewrite H2, H1. destruct (u1 k), (u2 k); reflexivity.
Qed.

Lemma editBlock_keys (edit : Z -> Z -> World -> bool * World)
  (sound : string) (g : Game) :
  g_keys (editBlock rebuildBatches edit sound g) = g_keys g.
Proof.
  unfold editBlock. cbv zeta. destruct (edit _ _ _) as [[|] w]; reflexivity.
Qed.

(** X17: The key handler uses up the space, F, T and Y keys, which read false
    after it whatever they read before, and leaves every other key as it
    was: movement keys stay held from frame to frame. *)
Theorem one_shot_keys (g : Game) (k : string) :
  g_keys (_handleKeys g) k = if oneShot k then false else g_keys g k.
Proof.
  assert (HW : keysAfter (keyW (World:=World)) (fun _ => false))
    by (apply held_key; reflexivity).
  assert (HS : keysAfter (keyS (World:=World)) (fun _ => false))
    by (apply held_key; reflexivity).
  assert (HA : keysAfter (keyA (World:=World)) (fun _ => false))
    by (apply held_key; reflexivity).
  assert (HD : keysAfter (keyD (World:=World)) (fun _ => false))
    by (apply held_key; reflexivity).
  assert (HQ : keysAfter (keyQ (World:=World)) (fun _ => false))
    by (apply held_key; reflexivity).
  assert (HE : keysAfter (keyE (World:=World)) (fun _ => false))
    by (apply held_key; reflexivity).
  assert (HSp : keysAfter (keySpace (World:=World))
                          (fun k => String.eqb k " "))
    by (apply used_key; reflexivity).
  assert (HF : keysAfter (keyF (World:=World)) (fun k => String.eqb k "f"))
    by (apply used_key; reflexivity).
  assert (HT : keysAfter (keyT addBlock rebuildBatches)
                         (fun k => String.eqb k "t")).
  { apply used_key. intros g0. cbv zeta. cbn [g_keys with_keys].
    now rewrite editBlock_keys. }
  assert (HY : keysAfter (keyY removeBlock rebuildBatches)
                         (fun k => String.eqb k "y")).
  { apply used_key. intros g0. cbv zeta. cbn [g_keys with_keys].
    now rewrite editBlock_keys. }
  unfold Main._handleKeys. cbv zeta.
  rewrite HY, HT, HF, HSp, HE, HQ, HD, HA, HS, HW. unfold oneShot.
  destruct (String.eqb k " "), (String.eqb k "f"), (String.eqb k "t"),
    (String.eqb k "y"); reflexivity.
Qed.

(** *** The bounds, handler by handler *)

Lemma onKey_keepsBounds (k : string) (f : Game -> Game) :
  keepsBounds f -> keepsBounds (onKey k f).
Proof.
  intros Hf g Hg. unfold onKey. destruct (g_keys g k); [now apply Hf | auto].
Qed.

Lemma camera_op_keepsBounds (op : CameraOps.Op) :
  keepsBounds (fun g : Game => with_camera (CameraOps.run op (camera g)) g).
Proof.
  intros g (Hgun & Hcam & Hrest). split; [exact Hgun|].
  split; [|exact Hrest]. cbn [camera with_camera].
  now apply CameraExtra.run_consistent.
Qed.

Lemma editBlock_keepsBounds (edit : Z -> Z -> World -> bool * World)
  (sound : string) :
  keepsBounds (editBlock rebuildBatches edit sound).
Proof.
  intros g Hg. unfold inBounds.
  destruct (MainFacts.editBlock_keeps rebuildBatches edit sound g)
    as (-> & -> & -> & _).
  exact Hg.
Qed.

Lemma handleKeys_keepsBounds : keepsBounds _handleKeys.
Proof.
  intros g Hg. unfold Main._handleKeys. cbv zeta.
  apply onKey_keepsBounds.
  { intros g0 H0. cbv zeta.
    exact (editBlock_keepsBounds removeBlock "break" H0). }
  apply onKey_keepsBounds.
  { intros g0 H0. cbv zeta.
    exact (editBlock_keepsBounds addBlock "place" H0). }
  apply onKey_keepsBounds.
  { intros g0 (Hgun & Hrest). cbv zeta. split; [|exact Hrest].
    cbn [gun with_gun with_audio with_keys].
    now apply GunExtra.shoot_ok. }
  apply onKey_keepsBounds.
  { intros g0 H0. cbv zeta.
    exact (camera_op_keepsBounds CameraOps.Jump H0). }
  apply onKey_keepsBounds; [exact (camera_op_keepsBounds CameraOps.PanRight)|].
  apply onKey_keepsBounds; [exact (camera_op_keepsBounds CameraOps.PanLeft)|].
  apply onKey_keepsBounds; [exact (camera_op_keepsBounds CameraOps.MoveRight)|].
  apply onKey_keepsBounds; [exact (camera_op_keepsBounds CameraOps.MoveLeft)|].
  apply onKey_keepsBounds;
    [exact (camera_op_keepsBounds CameraOps.MoveBackwards)|].
  apply onKey_keepsBounds;
    [exact (camera_op_keepsBounds CameraOps.MoveForward)|].
  exact Hg.
Qed.

Lemma afterKeys_keepsBounds (eb : R * R) :
  keepsBounds (afterKeys (World:=World) eb).
Proof.
  intros g (Hgun & Hcam & Hlen & Htimer & Hhp & kills & Hk0 & Hscore).
  destruct (MainFacts.afterKeys_order eb g) as (Ec & Eg & Ee & _ & _).
  cbv zeta in *. unfold inBounds. rewrite Ec, Eg, Ee. clear Ec Eg Ee.
  destruct (EnemiesExtra.updateEnemies_population (camera g) (random g)
              (enemies g)) as (_ & Pcap & Ptimer & Pscore).
  cbv zeta in *.
  pose proof (EnemiesExtra.updateEnemies_health_bounds (camera g) (random g)
                (enemies g) (proj1 Hhp)) as Phealth.
  set (s1 := snd (Enemies.updateEnemies (camera g) (random g) (enemies g)))
    in *.
  set (bs := Gun.g_bullets (Gun.updateBullets (gun g))).
  set (a1 := audio (walkSoundPhase eb g)).
  destruct (EnemiesExtra.hitLoop_conserves bs [] s1 a1)
    as (Hsame & _ & Hmono & Ht & Hh).
  pose proof (MainFacts.hitLoop_score bs [] s1 a1) as Hsc.
  cbv zeta in *. unfold Enemies.checkBulletHits.
  set (r := Enemies.hitLoop bs [] s1 a1) in *.
  split; [|split; [|split; [|split; [|split]]]].
  - exact (GunExtra.resolve_ok s1 a1 (GunExtra.updateBullets_ok Hgun)).
  - apply (CameraExtra.run_consistent CameraOps.UpdateView).
    now apply (CameraExtra.run_consistent CameraOps.ApplyGravity).
  - rewrite <- (Forall2_length Hsame). now apply Pcap.
  - rewrite Ht. now apply Ptimer.
  - rewrite Hh. lra.
  - exists (kills + Spec.deadCount (Enemies.g_enemies (Spec.hitState r))
            - Spec.deadCount (Enemies.g_enemies s1))%Z.
    split; lia.
Qed.

Lemma tick_keepsBounds : keepsBounds tick.
Proof.
  intros g Hg. rewrite MainFacts.tick_afterKeys.
  apply afterKeys_keepsBounds, handleKeys_keepsBounds, Hg.
Qed.

Lemma handle_keepsBounds (e : Event) : keepsBounds (handle e).
Proof.
  intros g Hg.
  destruct e as [key|key|button locked|dx dy locked|]; unfold Session.handle.
  - exact Hg.
  - exact Hg.
  - destruct ((button =? 0)%Z && locked); [|exact Hg].
    cbv zeta. destruct Hg as (Hgun & Hrest). split; [|exact Hrest].
    cbn [gun with_gun with_audio]. now apply GunExtra.shoot_ok.
  - destruct locked; cbn [negb]; [|exact Hg].
    exact (camera_op_keepsBounds (CameraOps.MouseRotate dx dy) Hg).
  - now apply tick_keepsBounds.
Qed.

Lemma start_inBounds (rnd : Random) (w : World) : inBounds (start rnd w).
Proof.
  unfold start, Enemies.initEnemies.
  destruct (EnemiesExtra.spawnEnemy_appends rnd []) as (e & He & _).
  destruct (Enemies.spawnEnemy rnd []) as [rnd' es]. cbn [snd] in He.
  subst es. unfold inBounds.
  cbn [gun camera enemies Enemies.g_enemies Enemies.g_enemySpawnTimer
       Enemies.g_playerHealth Enemies.g_score app List.length].
  split; [|split; [|split; [|split; [|split]]]].
  - unfold GunInv.ok, Gun.initGun, Gun.SHOOT_COOLDOWN. cbn.
    repeat split; try lia; constructor.
  - unfold CameraOps.consistent. cbn. repeat split; try lra.
  - unfold Enemies.ENEMY_MAX. lia.
  - unfold Enemies.ENEMY_SPAWN_RATE. lia.
  - lra.
  - exists 0%Z. split; lia.
Qed.

Lemma play_inBounds (es : list Event) (g : Game) :
  inBounds g -> inBounds (play es g).
Proof.
  unfold Session.play. revert g.
  induction es as [|e es IH]; intros g Hg; cbn [fold_left]; [exact Hg|].
  apply IH, handle_keepsBounds, Hg.
Qed.

(** X18: From start-up on, whatever keys, mouse events and frames arrive: there
    are never more than 7 bullets or 20 enemies in the lists, the shoot
    cooldown is within 0..12, the player's health within 0..100, the eye
    never below the ground, the pitch within [-89, 89], and the score is
    ten times a number of kills. *)
Theorem session_stays_in_bounds (es : list Event) (rnd : Random) (w : World) :
  let g := play es (start rnd w) in
  (List.length (Gun.g_bullets (gun g)) <= 7)%nat /\
  (0 <= Gun.g_shootCooldown (gun g) <= 12)%Z /\
  (List.length (Enemies.g_enemies (enemies g)) <= 20)%nat /\
  0 <= Enemies.g_playerHealth (enemies g) <= 100 /\
  Camera.groundY (camera g) <= v1 (Camera.eye (camera g)) /\
  -89 <= Camera.pitch (camera g) <= 89 /\
  (0 <= Enemies.g_score (enemies g))%Z /\
  (Enemies.g_score (enemies g) mod 10 = 0)%Z.
Proof.
  cbv zeta.
  destruct (play_inBounds es (start_inBounds rnd w))
    as (Hgun & Hcam & Hlen & _ & Hhp & kills & Hk0 & Hscore).
  split; [now apply GunExtra.ok_at_most_7|].
  split; [apply Hgun|]. split; [exact Hlen|]. split; [exact Hhp|].
  split; [apply Hcam|]. split; [apply Hcam|].
  rewrite Hscore. split; [lia|].
  rewrite Z.mul_comm. apply Z.mod_mul. lia.
Qed.

End SessionFacts.

End SessionFacts.

Module SheepFacts.

Import Sheep.

(** *** The gait *)

(** X19: After the animation step the left hip and shoulder mirror the right
    ones, elbows and knees are equal on both sides, and every joint angle
    is within its range: tail in [-20, 20], shoulders within 30 degrees,
    elbows in [0, 10], hips in [-1, 1], knees in [0, 0.4]. *)
Theorem gait_is_mirrored (a : Anim) :
  let a' := animate a in
  g_sheepTime a' = g_sheepTime a + 0.04 /\
  g_leftLegHip a' = - g_rightLegHip a' /\
  g_leftArmShoulder a' = - g_rightArmShoulder a' /\
  g_leftArmElbow a' = g_rightArmElbow a' /\
  g_leftLegKnee a' = g_rightLegKnee a' /\
  -20 <= g_tailAngle a' <= 20 /\
  0 <= g_rightArmShoulder a' <= 30 /\
  0 <= g_rightArmElbow a' <= 10 /\
  -1 <= g_rightLegHip a' <= 1 /\
  0 <= g_rightLegKnee a' <= 0.4.
Proof.
  cbv zeta. unfold animate.
  cbn [g_sheepTime g_tailAngle g_rightArmShoulder g_rightArmElbow
       g_leftArmShoulder g_leftArmElbow g_rightLegHip g_rightLegKnee
       g_leftLegHip g_leftLegKnee].
  pose proof (SIN_bound (g_sheepTime a + 0.04)) as Hw.
  pose proof (SIN_bound ((g_sheepTime a + 0.04) * 2.5)) as Ht.
  pose proof (Rabs_pos (sin (g_sheepTime a + 0.04))) as Hp.
  assert (Ha : Rabs (sin (g_sheepTime a + 0.04)) <= 1)
    by (apply Rabs_le; lra).
  repeat apply conj; lra.
Qed.

(** *** The parts *)

Lemma drawBody_slots (a : Anim) : map slot (_drawBody a) = seq 0 23.
Proof. reflexivity. Qed.

Lemma drawBody_base (a : Anim) :
  Forall (fun p => firstn 2 (matrix p) = _mBase a) (_drawBody a).
Proof.
  unfold _drawBody, _drawArm, _drawLeg. cbv zeta. cbn [app].
  repeat constructor.
Qed.

(** X20: [drawSheep] draws 23 parts, one from each of the pool slots 0 to 22 in
    order, so within the pool of 28 and no slot twice; every part's matrix
    starts from the body transform of this frame; without the shader
    program nothing is drawn and the animation does not advance. *)
Theorem sheep_has_23_parts (g_sheepProgram : bool) (a : Anim) :
  let r := drawSheep g_sheepProgram a in
  (g_sheepProgram = false -> r = (a, [])) /\
  (g_sheepProgram = true ->
   fst r = animate a /\
   map slot (snd r) = seq 0 23 /\
   Forall (fun p => (slot p < poolSize)%nat) (snd r) /\
   NoDup (map slot (snd r)) /\
   Forall (fun p => firstn 2 (matrix p) = _mBase (fst r)) (snd r)).
Proof.
  cbv zeta. unfold drawSheep. split; intros ->; cbn [negb fst snd].
  - reflexivity.
  - split; [reflexivity|]. split; [apply drawBody_slots|].
    split; [|split].
    + apply Forall_forall. intros p Hp.
      assert (Hin : In (slot p) (map slot (_drawBody (animate a))))
        by now apply in_map.
      rewrite drawBody_slots in Hin. apply in_seq in Hin.
      unfold poolSize. lia.
    + rewrite drawBody_slots. apply seq_NoDup.
    + apply drawBody_base.
Qed.

(** *** The meshes *)

Lemma flat_map_length_const (A B : Type) (f : A -> list B) (k : nat)
  (l : list A) :
  (forall x, List.length (f x) = k) ->
  List.length (flat_map f l) = (k * List.length l)%nat.
Proof.
  intros Hf. induction l as [|x l IH]; cbn [flat_map List.length]; [lia|].
  rewrite length_app, Hf, IH. lia.
Qed.

Lemma sphere_pos_length (DIV : nat) :
  List.length (pos (sphereGeometry DIV))
  = (3 * ((DIV + 1) * (DIV + 1)))%nat.
Proof.
  unfold sphereGeometry. cbn [pos].
  rewrite flat_map_length_const with (k := (3 * (DIV + 1))%nat).
  - rewrite length_seq. lia.
  - intros j. rewrite flat_map_length_const with (k := 3%nat);
      [rewrite length_seq; lia | reflexivity].
Qed.

Lemma sphere_vertexCount (DIV : nat) :
  vertexCount (sphereGeometry DIV) = ((DIV + 1) * (DIV + 1))%nat.
Proof.
  unfold vertexCount. rewrite sphere_pos_length.
  rewrite Nat.mul_comm. apply Nat.div_mul. lia.
Qed.

Lemma sphere_wellFormed (DIV : nat) :
  (DIV <= 254)%nat -> wellFormed (sphereGeometry DIV).
Proof.
  intros Hsmall. unfold wellFormed. rewrite sphere_vertexCount.
  split; [reflexivity|]. split; [apply sphere_pos_length|]. split.
  - exists (2 * (DIV * DIV))%nat. unfold numIndices, sphereGeometry.
    cbn [idx].
    rewrite flat_map_length_const with (k := (6 * DIV)%nat).
    + rewrite length_seq. lia.
    + intros j. rewrite flat_map_length_const with (k := 6%nat);
        [rewrite length_seq; lia | reflexivity].
  - unfold sphereGeometry. cbn [idx].
    apply Forall_flat_map, Forall_forall. intros j Hj.
    apply Forall_flat_map, Forall_forall. intros i Hi.
    apply in_seq in Hj, Hi. cbv zeta.
    repeat constructor; nia.
Qed.

Lemma cylSidePos_length (SEG : nat) :
  List.length (cylSidePos SEG) = (3 * (2 * (SEG + 1)))%nat.
Proof.
  unfold cylSidePos.
  rewrite flat_map_length_const with (k := 6%nat);
    [rewrite length_seq; lia | reflexivity].
Qed.

Lemma cylSideNor_length (SEG : nat) :
  List.length (cylSideNor SEG) = (3 * (2 * (SEG + 1)))%nat.
Proof.
  unfold cylSideNor.
  rewrite flat_map_length_const with (k := 6%nat);
    [rewrite length_seq; lia | reflexivity].
Qed.

Lemma cylCapPos_length (SEG : nat) (y : R) :
  List.length (cylCapPos SEG y) = (3 * (SEG + 2))%nat.
Proof.
  unfold cylCapPos. rewrite length_app.
  rewrite flat_map_length_const with (k := 3%nat);
    [rewrite length_seq; cbn [List.length]; lia | reflexivity].
Qed.

Lemma cylCapNor_length (SEG : nat) (ny : R) :
  List.length (cylCapNor SEG ny) = (3 * (SEG + 2))%nat.
Proof.
  unfold cylCapNor. rewrite length_app.
  rewrite flat_map_length_const with (k := 3%nat);
    [rewrite length_seq; cbn [List.length]; lia | reflexivity].
Qed.

Lemma div3 (n : nat) : (3 * n / 3 = n)%nat.
Proof. rewrite Nat.mul_comm. apply Nat.div_mul. lia. Qed.

Lemma cylinder_wellFormed (SEG : nat) :
  (Z.of_nat SEG <= 16000)%Z -> wellFormed (cylinderGeometry SEG).
Proof.
  intros Hsmall. unfold wellFormed, vertexCount, numIndices, cylinderGeometry.
  cbv zeta. cbn [pos nor idx].
  assert (Hbc : (List.length (cylSidePos SEG) / 3 = 2 * (SEG + 1))%nat)
    by (rewrite cylSidePos_length; apply div3).
  assert (Htc : (List.length (cylSidePos SEG ++ cylCapPos SEG (-0.5)) / 3
                 = 3 * SEG + 4)%nat).
  { rewrite length_app, cylSidePos_length, cylCapPos_length.
    replace (3 * (2 * (SEG + 1)) + 3 * (SEG + 2))%nat
      with (3 * (3 * SEG + 4))%nat by lia.
    apply div3. }
  assert (Hpos : List.length ((cylSidePos SEG ++ cylCapPos SEG (-0.5))
                              ++ cylCapPos SEG 0.5)
                 = (3 * (4 * SEG + 6))%nat).
  { rewrite !length_app, cylSidePos_length, !cylCapPos_length. lia. }
  rewrite Hbc, Htc, Hpos, div3.
  split; [|split; [reflexivity|split]].
  - rewrite !length_app, cylSideNor_length, !cylCapNor_length. lia.
  - exists (4 * SEG)%nat. rewrite !length_app. unfold cylSideIdx.
    rewrite flat_map_length_const with (k := 6%nat) by reflexivity.
    rewrite !flat_map_length_const with (k := 3%nat) by reflexivity.
    rewrite length_seq. lia.
  - apply Forall_app. split; [|apply Forall_app; split].
    + unfold cylSideIdx. apply Forall_flat_map, Forall_forall. intros i Hi.
      apply in_seq in Hi. cbv zeta. repeat constructor; lia.
    + apply Forall_flat_map, Forall_forall. intros i Hi.
      apply in_seq in Hi. repeat constructor; lia.
    + apply Forall_flat_map, Forall_forall. intros i Hi.
      apply in_seq in Hi. repeat constructor; lia.
Qed.

Lemma cube_wellFormed : wellFormed _initSheepCube.
Proof.
  unfold wellFormed, vertexCount, numIndices.
  assert (Hlen : List.length (pos _initSheepCube) = 72%nat) by reflexivity.
  rewrite Hlen. change (72 / 3)%nat with 24%nat.
  split; [reflexivity|]. split; [reflexivity|]. split.
  - exists 12%nat. reflexivity.
  - unfold _initSheepCube. cbn [idx]. repeat constructor; lia.
Qed.

(** X21: The three meshes are well formed, the sphere and the cylinder for any
    number of divisions a 16-bit index buffer has room for: normals match
    positions, the indices make whole triangles, and every index is that of
    a vertex.  The sphere has (DIV + 1)^2 vertices, the cylinder 4 SEG + 6. *)
Theorem meshes_are_well_formed :
  (forall DIV, (DIV <= 254)%nat ->
     wellFormed (sphereGeometry DIV) /\
     vertexCount (sphereGeometry DIV) = ((DIV + 1) * (DIV + 1))%nat) /\
  (forall SEG, (Z.of_nat SEG <= 16000)%Z ->
     wellFormed (cylinderGeometry SEG) /\
     vertexCount (cylinderGeometry SEG) = (4 * SEG + 6)%nat) /\
  wellFormed _initSheepSphere /\ wellFormed _initSheepCylinder /\
  wellFormed _initSheepCube.
Proof.
  split; [|split; [|split; [|split]]].
  - intros DIV H. split; [now apply sphere_wellFormed|].
    apply sphere_vertexCount.
  - intros SEG H. split; [now apply cylinder_wellFormed|].
    unfold vertexCount, cylinderGeometry. cbv zeta. cbn [pos].
    rewrite !length_app, cylSidePos_length, !cylCapPos_length.
    replace (3 * (2 * (SEG + 1)) + 3 * (SEG + 2) + 3 * (SEG + 2))%nat
      with (3 * (4 * SEG + 6))%nat by lia.
    apply div3.
  - apply sphere_wellFormed. lia.
  - apply cylinder_wellFormed. lia.
  - apply cube_wellFormed.
Qed.

(** X22: Every vertex of the sphere lies on the unit sphere, whatever the
    number of divisions, and its normal is the vertex itself. *)
Theorem sphere_vertices_are_unit (DIV j i : nat) :
  nor (sphereGeometry DIV) = pos (sphereGeometry DIV) /\
  exists x y z,
    sphereVertex DIV j i = [x; y; z] /\ x * x + y * y + z * z = 1.
Proof.
  split; [reflexivity|]. unfold sphereVertex. cbv zeta.
  do 3 eexists. split; [reflexivity|].
  set (aj := INR j * PI / INR DIV). set (ai := INR i * 2 * PI / INR DIV).
  pose proof (sin2_cos2 aj) as Hj. pose proof (sin2_cos2 ai) as Hi.
  unfold Rsqr in *.
  replace (sin ai * sin aj * (sin ai * sin aj) + cos aj * cos aj
           + cos ai * sin aj * (cos ai * sin aj))
    with ((sin ai * sin ai + cos ai * cos ai) * (sin aj * sin aj)
          + cos aj * cos aj) by ring.
  rewrite Hi. lra.
Qed.

End SheepFacts.

Module MapFacts.

Import Camera.

Lemma floor_near (x y : R) :
  x - 1.5 <= y <= x + 1.5 ->
  (-2 <= JS.Math_floor y - JS.Math_floor x <= 2)%Z.
Proof.
  intros Hxy. unfold JS.Math_floor.
  destruct (base_Int_part x) as [Hx1 Hx2].
  destruct (base_Int_part y) as [Hy1 Hy2].
  split.
  - assert (H : IZR (Int_part x) - 3 < IZR (Int_part y)) by lra.
    rewrite <- minus_IZR in H. apply lt_IZR in H. lia.
  - assert (H : IZR (Int_part y) < IZR (Int_part x) + 3) by lra.
    rewrite <- plus_IZR in H. apply lt_IZR in H. lia.
Qed.

(** X23: the map cell in front of the camera, where blocks are added and
    removed, is never more than two cells away from the camera's own cell,
    in either direction of either axis. *)
Theorem front_cell_is_near (c : t) :
  (-2 <= fst (getFrontMapPosition c) - fst (getMapPosition c) <= 2)%Z /\
  (-2 <= snd (getFrontMapPosition c) - snd (getMapPosition c) <= 2)%Z.
Proof.
  unfold getFrontMapPosition, getMapPosition, _fwd. cbv zeta.
  cbn [fst snd v0 v2].
  pose proof (COS_bound (yaw c * PI / 180)) as Hc.
  pose proof (SIN_bound (yaw c * PI / 180)) as Hs.
  split; apply floor_near; lra.
Qed.

End MapFacts.

Module ShotFacts.

Import Main Session.

Section ShotFacts.

Variable World : Type.
Variable addBlock : Z -> Z -> World -> bool * World.
Variable removeBlock : Z -> Z -> World -> bool * World.
Variable rebuildBatches : World -> World.

Local Abbreviation Game := (Game World).
Local Abbreviation _handleKeys :=
  (_handleKeys addBlock removeBlock rebuildBatches).

(** The keys handled before F leave the gun and the F key alone. *)
Lemma before_F (k : string) (f : Game -> Game) (g : Game) :
  (forall x, gun (f x) = gun x /\ g_keys (f x) "f"%string = g_keys x "f"%string) ->
  gun (onKey k f g) = gun g /\
  g_keys (onKey k f g) "f"%string = g_keys g "f"%string.
Proof.
  intros Hf. unfold onKey. destruct (g_keys g k); [apply Hf | auto].
Qed.

Lemma up_to_F (g : Game) :
  let g' := keySpace (keyE (keyQ (keyD (keyA (keyS (keyW g)))))) in
  gun g' = gun g /\ g_keys g' "f"%string = g_keys g "f"%string.
Proof.
  cbv zeta.
  assert (Hmove : forall (k : string) (m : Camera.t -> Camera.t) (x : Game),
             gun (onKey k (fun g0 => with_camera (m (camera g0)) g0) x) = gun x /\
             g_keys (onKey k (fun g0 => with_camera (m (camera g0)) g0) x)
                    "f"%string = g_keys x "f"%string).
  { intros k m x. apply before_F. intros y. split; reflexivity. }
  assert (Hsp : forall x : Game,
             gun (keySpace x) = gun x /\
             g_keys (keySpace x) "f"%string = g_keys x "f"%string).
  { intros x. apply before_F. intros y. split; reflexivity. }
  destruct (Hsp (keyE (keyQ (keyD (keyA (keyS (keyW g))))))) as [-> ->].
  unfold keyE, keyQ, keyD, keyA, keyS, keyW.
  repeat match goal with
         | |- context [onKey ?k (fun g0 => with_camera (?m (camera g0)) g0) ?x] =>
             destruct (Hmove k m x) as [-> ->]
         end.
  split; reflexivity.
Qed.

Lemma after_F (g : Game) :
  gun (keyY removeBlock rebuildBatches (keyT addBlock rebuildBatches g))
  = gun g /\
  camera (keyY removeBlock rebuildBatches (keyT addBlock rebuildBatches g))
  = camera g.
Proof.
  assert (H : forall (k sound : string) edit (x : Game),
             gun (onKey k (fun g0 =>
                    let g1 := editBlock rebuildBatches edit sound g0 in
                    with_keys (setKey k false (g_keys g1)) g1) x) = gun x /\
             camera (onKey k (fun g0 =>
                    let g1 := editBlock rebuildBatches edit sound g0 in
                    with_keys (setKey k false (g_keys g1)) g1) x) = camera x).
  { intros k sound edit x. unfold onKey. destruct (g_keys x k); [|auto].
    cbv zeta. cbn [gun camera with_keys].
    destruct (MainFacts.editBlock_keeps rebuildBatches edit sound x)
      as (-> & -> & _). auto. }
  split.
  - transitivity (gun (keyT addBlock rebuildBatches g));
      [apply (H "y"%string "break"%string removeBlock)
      | apply (H "t"%string "place"%string addBlock)].
  - transitivity (camera (keyT addBlock rebuildBatches g));
      [apply (H "y"%string "break"%string removeBlock)
      | apply (H "t"%string "place"%string addBlock)].
Qed.

(** X24: a shot taken with the F key is aimed and moved in the same frame:
    with F held and the gun ready, the key handler appends the bullet fired
    from the camera as the movement, pan and jump keys of this frame have
    left it, and [updateBullets], which follows in the same tick, already
    moves that bullet once and takes the cooldown from 12 to 11. *)
Theorem f_key_shot_moves_this_frame (g : Game) :
  g_keys g "f"%string = true -> (Gun.g_shootCooldown (gun g) <= 0)%Z ->
  let g1 := _handleKeys g in
  let b := Spec.firedBullet (camera g1) in
  gun g1 = Gun.mk (Gun.g_bullets (gun g) ++ [b]) Gun.SHOOT_COOLDOWN /\
  gun (bulletPhase g1)
  = Gun.mk (Spec.stepBullets (Gun.g_bullets (gun g))
            ++ [Gun.advanceBullet b]) 11.
Proof.
  intros Hf Hcd. cbv zeta.
  assert (E : _handleKeys g
              = keyY removeBlock rebuildBatches
                  (keyT addBlock rebuildBatches
                     (keyF (keySpace (keyE (keyQ (keyD (keyA (keyS
                        (keyW g))))))))))
    by reflexivity.
  rewrite E. clear E.
  destruct (up_to_F g) as [Hgun Hkey]. cbv zeta in *.
  set (g' := keySpace (keyE (keyQ (keyD (keyA (keyS (keyW g))))))) in *.
  destruct (after_F (keyF g')) as [EG EC]. rewrite EG, EC.
  assert (HF : gun (keyF g') = Gun.shoot (camera g') (gun g')
               /\ camera (keyF g') = camera g').
  { unfold keyF, onKey. rewrite Hkey, Hf. cbv zeta. split; reflexivity. }
  destruct HF as [HFg HFc]. rewrite HFc.
  assert (Hshoot : Gun.shoot (camera g') (gun g')
                   = Gun.mk (Gun.g_bullets (gun g)
                             ++ [Spec.firedBullet (camera g')])
                            Gun.SHOOT_COOLDOWN).
  { rewrite Hgun. now apply GunFacts.shoot_ready. }
  split; [now rewrite HFg|].
  unfold bulletPhase. cbn [gun with_gun].
  destruct (after_F (keyF g')) as [-> _]. rewrite HFg, Hshoot. unfold Gun.updateBullets, Gun.SHOOT_COOLDOWN.
  cbn [Gun.g_bullets Gun.g_shootCooldown].
  change (filter (fun b => (Bullet.life b >? 0)%Z)
                 (map Gun.advanceBullet
                      (Gun.g_bullets (gun g)
                       ++ [Spec.firedBullet (camera g')])))
    with (Spec.stepBullets (Gun.g_bullets (gun g)
                            ++ [Spec.firedBullet (camera g')])).
  rewrite GunFacts.stepBullets_app. reflexivity.
Qed.

End ShotFacts.

Lemma f_key_shot_moves_this_frame_witness :
  let g := mkGame Camera.new (fun k => String.eqb k "f") Gun.initGun
                  (Enemies.mk [] 0 100 0) (fun _ => 0)
                  (Sound.initSounds (Sound.mk [] false [])) tt in
  g_keys g "f"%string = true /\ (Gun.g_shootCooldown (gun g) <= 0)%Z /\
  let g1 := Main._handleKeys Spec.noBlocks Spec.noBlocks (fun w => w) g in
  let b := Spec.firedBullet (camera g1) in
  gun g1 = Gun.mk (Gun.g_bullets (gun g) ++ [b]) Gun.SHOOT_COOLDOWN /\
  gun (bulletPhase g1)
  = Gun.mk (Spec.stepBullets (Gun.g_bullets (gun g))
            ++ [Gun.advanceBullet b]) 11.
Proof.
  intros g.
  assert (H1 : g_keys g "f"%string = true) by reflexivity.
  assert (H2 : (Gun.g_shootCooldown (gun g) <= 0)%Z) by (cbn; lia).
  split; [exact H1|]. split; [exact H2|].
  exact (@f_key_shot_moves_this_frame unit Spec.noBlocks Spec.noBlocks
           (fun w => w) g H1 H2).
Defined.

End ShotFacts.
